(** * serversentevent: the stream encoder (index.js) and the browser transport

  A shallow embedding of the two components of the repository:

  - the server side encoder [SSE] of index.js.  The file holds two copies
    of the encoder; they share [legacy], [format], [retry], [write] and
    [_write] word for word and differ in the constructor and in [accept]
    (the first copy negotiates compression and starts [lastEventId] at
    [null], the second has no compression and starts it at [0]);
  - the client side transport [ServerSentEvents].

  Conventions.  JavaScript objects that are mutated in place are threaded
  explicitly: a method takes the receiver and returns the updated receiver.
  A call that throws is a [Throw] completion.  Strings are byte strings.
  The numbers the encoder prints (the sequence counter, retry intervals)
  are non-negative integers and are modelled as [N]; JavaScript holds such
  integers exactly below 2^53 and prints them in plain decimal, which is
  the regime the model describes.  The resume state is a double: the
  header text is converted as unary plus converts it, rounded to the
  nearest double.  The object an encoder writes to is the response or a
  zlib stream; only the response has [setHeader].  External collaborators
  (url parsing, encoding negotiation, what the zlib stream buffers and
  answers, the Vary helper, the sink's own buffering) are parameters of
  the development. *)

From Stdlib Require Import Ascii Lia.
From stdpp Require Import gmap strings pretty.

Local Open Scope N_scope.

(** ** Strings *)

(** The line feed, written ['\n'] in the source. *)
Definition LF_char : ascii := "010"%char.
Definition LF : string := String LF_char "".

Module Str.

(** Number of occurrences of a character. *)
Fixpoint count (c : ascii) (s : string) : nat :=
  match s with
  | EmptyString => 0%nat
  | String d s' => ((if decide (d = c) then 1 else 0) + count c s')%nat
  end.

Definition has_newline (s : string) : bool :=
  bool_decide (count LF_char s ≠ 0%nat).

Fixpoint last (s : string) : option ascii :=
  match s with
  | EmptyString => None
  | String c EmptyString => Some c
  | String _ s' => last s'
  end.

(** The lines of a text: the pieces between line feeds.  A text that ends
    in a line feed has an empty last piece. *)
Fixpoint lines (s : string) : list string :=
  match s with
  | EmptyString => [EmptyString]
  | String c s' =>
      if decide (c = LF_char) then EmptyString :: lines s'
      else match lines s' with
           | l :: ls => String c l :: ls
           | [] => [String c EmptyString]
           end
  end.

(** [strip p s] is the rest of [s] after the prefix [p]. *)
Fixpoint strip (p s : string) : option string :=
  match p, s with
  | EmptyString, _ => Some s
  | String a p', String b s' => if decide (a = b) then strip p' s' else None
  | String _ _, EmptyString => None
  end.

Definition starts_with (p s : string) : bool :=
  match strip p s with Some _ => true | None => false end.

(** [String.prototype.indexOf] for a one character needle, as far as the
    caller looks at it: is the character there at all. *)
Definition contains (c : ascii) (s : string) : bool :=
  bool_decide (count c s ≠ 0%nat).

End Str.

(** ** JavaScript values and completions *)

Module JS.

Inductive value :=
| Undefined
| Null
| Bool (b : bool)
| Num (n : N)
| Str (s : string).

Definition truthy (v : value) : bool :=
  match v with
  | Undefined | Null => false
  | Bool b => b
  | Num n => negb (n =? 0)
  | Str s => negb (bool_decide (s = ""))
  end.

(** [v === true]. *)
Definition is_true (v : value) : bool :=
  match v with
  | Bool true => true
  | _ => false
  end.

(** String conversion, as done by [+] with a string operand. *)
Definition to_string (v : value) : string :=
  match v with
  | Undefined => "undefined"
  | Null => "null"
  | Bool true => "true"
  | Bool false => "false"
  | Num n => pretty n
  | Str s => s
  end.

(** Property lookup on a string-valued object: a missing key reads as
    [undefined]. *)
Definition get (o : gmap string string) (k : string) : value :=
  match o !! k with
  | Some s => Str s
  | None => Undefined
  end.

Inductive completion (A : Type) :=
| Normal (a : A)
| Throw (err : string).
Arguments Normal {A} a.
Arguments Throw {A} err.

Global Instance completion_ret : MRet completion := λ A a, Normal a.
Global Instance completion_bind : MBind completion := λ A B k c,
  match c with
  | Normal a => k a
  | Throw err => Throw err
  end.

Definition TypeError : string := "TypeError".

End JS.

(** ** String to number conversion (unary [+] on a string)

  [Number.of_string] follows the StringNumericLiteral grammar of the
  language: surrounding white space is dropped, the empty text is [0], a
  radix prefix [0x], [0o] or [0b] starts an unsigned integer, [Infinity]
  may carry a sign, and a decimal literal has an optional sign, fraction
  and exponent.  Anything else is [NaN].  The value of a literal is
  rounded to the nearest double, ties to even, with overflow to
  [Infinity] and underflow through the subnormal numbers to zero. *)

Module Number.

(** A double: [Fin neg m e] is [±m·2^e].  Values are kept in one form:
    an integer up to [2^53] has exponent [0]; any other value has an odd
    mantissa. *)
Inductive t :=
| NaN
| Infinity (neg : bool)
| Fin (neg : bool) (m : N) (e : Z).

(** The number [n], for [n] up to [2^53]. *)
Definition of_N (n : N) : t := Fin false n 0.

(** *** Rounding a ratio to a double *)

(** Trailing zero bits and what is left without them. *)
Fixpoint ctz (p : positive) : nat :=
  match p with
  | xO p' => S (ctz p')
  | _ => 0%nat
  end.

Fixpoint odd_part (p : positive) : positive :=
  match p with
  | xO p' => odd_part p'
  | _ => p
  end.

(** The one form of the value [m·2^k]. *)
Definition canonical (neg : bool) (m : N) (k : Z) : t :=
  match m with
  | N0 => Fin neg 0 0
  | Npos p =>
      let m' := Npos (odd_part p) in
      let k' := (k + Z.of_nat (ctz p))%Z in
      if (0 <=? k')%Z && (m' * 2 ^ Z.to_N k' <=? 2 ^ 53)
      then Fin neg (m' * 2 ^ Z.to_N k') 0
      else Fin neg m' k'
  end.

(** [floor (log2 (p / q))] for positive [p] and [q]. *)
Definition floor_log2 (p q : N) : Z :=
  let l0 := (Z.of_N (N.log2 p) - Z.of_N (N.log2 q))%Z in
  if p * 2 ^ Z.to_N (- l0) <? q * 2 ^ Z.to_N l0 then (l0 - 1)%Z else l0.

(** The integer nearest to [num / den], ties to the even one. *)
Definition nearest_even (num den : N) : N :=
  let q := num / den in
  let r := num mod den in
  if (den <? 2 * r) || ((2 * r =? den) && N.odd q) then q + 1 else q.

(** The double nearest to [±p/q], for [q] positive.  The mantissa gets 53
    bits unless the exponent would fall below [-1074]; a result of
    [2^1024] or more is [Infinity]. *)
Definition round_ratio (neg : bool) (p q : N) : t :=
  if p =? 0 then Fin neg 0 0
  else
    let k := Z.max (floor_log2 p q - 52) (-1074) in
    let m := nearest_even (p * 2 ^ Z.to_N (- k)) (q * 2 ^ Z.to_N k) in
    if (971 <? k)%Z || ((k =? 971)%Z && (m =? 2 ^ 53)) then Infinity neg
    else canonical neg m k.

(** The double nearest to [±m·10^e]. *)
Definition round_decimal (neg : bool) (m : N) (e : Z) : t :=
  round_ratio neg (m * 10 ^ Z.to_N e) (10 ^ Z.to_N (- e)).

(** *** Reading the literal *)

Definition is_space (c : ascii) : bool :=
  match c with
  | "009" | "010" | "011" | "012" | "013" | " " | "160" => true
  | _ => false
  end%char.

Fixpoint trim_left (s : string) : string :=
  match s with
  | EmptyString => EmptyString
  | String c s' => if is_space c then trim_left s' else s
  end.

Definition trim (s : string) : string :=
  String.rev (trim_left (String.rev (trim_left s))).

Definition digit (base : N) (c : ascii) : option N :=
  let n := N_of_ascii c in
  let d := if (48 <=? n) && (n <=? 57) then Some (n - 48)
           else if (97 <=? n) && (n <=? 102) then Some (n - 87)
           else if (65 <=? n) && (n <=? 70) then Some (n - 55)
           else None in
  match d with
  | Some v => if v <? base then Some v else None
  | None => None
  end.

(** The longest run of digits at the front of [s]: its value on top of
    [acc], how many digits it has, and the rest of the text. *)
Fixpoint digits (base acc : N) (len : nat) (s : string) : N * nat * string :=
  match s with
  | EmptyString => (acc, len, EmptyString)
  | String c s' =>
      match digit base c with
      | Some d => digits base (acc * base + d) (S len) s'
      | None => (acc, len, s)
      end
  end.

Definition radix_literal (base : N) (s : string) : t :=
  match digits base 0 0 s with
  | (v, S _, EmptyString) => round_ratio false v 1
  | _ => NaN
  end.

Definition sign (s : string) : bool * string :=
  match s with
  | String c s' =>
      if decide (c = "-"%char) then (true, s')
      else if decide (c = "+"%char) then (false, s')
      else (false, s)
  | EmptyString => (false, s)
  end.

Definition exponent (s : string) : option Z :=
  match s with
  | EmptyString => Some 0%Z
  | String c s' =>
      if decide (c = "e"%char ∨ c = "E"%char) then
        let '(neg, s'') := sign s' in
        match digits 10 0 0 s'' with
        | (v, S _, EmptyString) =>
            Some (if neg then (- Z.of_N v)%Z else Z.of_N v)
        | _ => None
        end
      else None
  end.

Definition unsigned_decimal (neg : bool) (s : string) : t :=
  if decide (s = "Infinity") then Infinity neg
  else
    let '(i, ni, s1) := digits 10 0 0 s in
    let '(m, nf, s2) :=
      match s1 with
      | String c s1' =>
          if decide (c = "."%char) then digits 10 i 0 s1' else (i, 0%nat, s1)
      | EmptyString => (i, 0%nat, s1)
      end in
    if decide ((ni + nf)%nat = 0%nat) then NaN
    else match exponent s2 with
         | Some x => round_decimal neg m (x - Z.of_nat nf)
         | None => NaN
         end.

Definition of_string (s : string) : t :=
  let s := trim s in
  match s with
  | EmptyString => Fin false 0 0
  | String c0 (String c1 rest) =>
      if decide (c0 = "0"%char ∧ (c1 = "x"%char ∨ c1 = "X"%char))
      then radix_literal 16 rest
      else if decide (c0 = "0"%char ∧ (c1 = "o"%char ∨ c1 = "O"%char))
      then radix_literal 8 rest
      else if decide (c0 = "0"%char ∧ (c1 = "b"%char ∨ c1 = "B"%char))
      then radix_literal 2 rest
      else let '(neg, s') := sign s in unsigned_decimal neg s'
  | _ => let '(neg, s') := sign s in unsigned_decimal neg s'
  end.

End Number.


(** ** The stream encoder (index.js) *)

Module Encoder.

(** *** Collaborators *)

(** The incoming request: its [url] and its [headers] object. *)
Record Request := {
  req_url : string;
  req_headers : gmap string string;
}.

Inductive Codec := Deflate | DeflateRaw | Gzip.

(** The object the encoder writes to: the response, or the zlib stream
    that [compress] hands back.  [codec] tells the two apart: it is
    [None] for a response and names the codec of a zlib stream; a zlib
    stream has [write] but no [setHeader].  [headers] is the property the
    constructor reads, which an object may lack; [sent] holds what
    [setHeader] stored; [chunks] is every argument given to [write],
    oldest first; [flushed] is the object's own answer to a [write],
    which may depend on what it has buffered so far. *)
Record Sink := {
  statusCode : option N;
  headers : option (gmap string string);
  sent : gmap string string;
  chunks : list string;
  flushed : list string → string → bool;
  codec : option Codec;
}.

Definition set_statusCode (code : N) (s : Sink) : Sink :=
  {| statusCode := Some code; headers := headers s; sent := sent s;
     chunks := chunks s; flushed := flushed s; codec := codec s |}.

(** [setHeader(name, value)] on a response. *)
Definition setHeader (name value : string) (s : Sink) : Sink :=
  {| statusCode := statusCode s; headers := headers s;
     sent := <[name := value]> (sent s);
     chunks := chunks s; flushed := flushed s; codec := codec s |}.

(** [res.write(chunk)]: the chunk is handed over and the sink answers. *)
Definition sink_write (chunk : string) (s : Sink) : bool * Sink :=
  (flushed s (chunks s) chunk,
   {| statusCode := statusCode s; headers := headers s; sent := sent s;
      chunks := chunks s ++ [chunk]; flushed := flushed s;
      codec := codec s |}).

(** The stream made by [zlib.createDeflate()], [createDeflateRaw()] or
    [createGzip()]. *)
Definition zlib (c : Codec) (s : Sink) : Sink :=
  {| statusCode := statusCode s; headers := headers s; sent := sent s;
     chunks := chunks s; flushed := flushed s; codec := Some c |}.

(** The parsed url; only its query object is looked at. *)
Record Url := { query : gmap string string }.

Record Options := {
  opt_numbering : JS.value;
  opt_manual : JS.value;
}.

(** The sequence store attached from outside as [this.storage]: the
    [set(id, payload)] calls it received, oldest first. *)
Definition Storage := list (N * string).

(** *** The encoder object

    The fields of [this]: [id] is the current message id, [lastEventId]
    is [null] ([None]) or a number, [res] is the sink, which [_write]
    tests before use, [legacy_flag] is the field [this.legacy] (the
    function of that name is [legacy] below), and [storage] is the store
    a caller may attach. *)

Record SSE := {
  id : N;
  lastEventId : option Number.t;
  encoding : JS.value;
  res : option Sink;
  url : Url;
  numbering : bool;
  legacy_flag : JS.value;
  storage : option Storage;
}.

Definition with_res (r : option Sink) (e : SSE) : SSE :=
  {| id := id e; lastEventId := lastEventId e; encoding := encoding e;
     res := r; url := url e; numbering := numbering e;
     legacy_flag := legacy_flag e; storage := storage e |}.

Definition with_id (n : N) (e : SSE) : SSE :=
  {| id := n; lastEventId := lastEventId e; encoding := encoding e;
     res := res e; url := url e; numbering := numbering e;
     legacy_flag := legacy_flag e; storage := storage e |}.

Definition with_lastEventId (l : option Number.t) (e : SSE) : SSE :=
  {| id := id e; lastEventId := l; encoding := encoding e;
     res := res e; url := url e; numbering := numbering e;
     legacy_flag := legacy_flag e; storage := storage e |}.

Definition with_storage (st : option Storage) (e : SSE) : SSE :=
  {| id := id e; lastEventId := lastEventId e; encoding := encoding e;
     res := res e; url := url e; numbering := numbering e;
     legacy_flag := legacy_flag e; storage := st |}.

(** *** [legacy(query, headers)], index.js 17-20 and 183-186

    The regular expression [/^Opera[^\/]*\/9/]: the text starts with
    [Opera], then come characters other than a slash, then [/9]. *)

Fixpoint skip_non_slash (s : string) : string :=
  match s with
  | EmptyString => EmptyString
  | String c s' => if decide (c = "/"%char) then s else skip_non_slash s'
  end.

Definition opera9 (ua : string) : bool :=
  match Str.strip "Opera" ua with
  | Some rest => Str.starts_with "/9" (skip_non_slash rest)
  | None => false
  end.

(** ['_SSE_LEGACY' in query || headers['user-agent'] && re.test(...)].
    Reading a property of a missing [headers] object throws. *)
Definition legacy (q : gmap string string)
    (hs : option (gmap string string)) : JS.completion JS.value :=
  if decide (is_Some (q !! "_SSE_LEGACY")) then JS.Normal (JS.Bool true)
  else match hs with
       | None => JS.Throw JS.TypeError
       | Some h =>
           let ua := JS.get h "user-agent" in
           if JS.truthy ua
           then JS.Normal (JS.Bool (opera9 (JS.to_string ua)))
           else JS.Normal ua
       end.

(** *** [format], index.js 124-126 and 259-261 *)

Definition format (e : SSE) (key : string) (value : JS.value) : string :=
  key +:+ ":" +:+ (if JS.truthy (legacy_flag e) then " " else "")
      +:+ JS.to_string value +:+ LF.

(** *** [_write], index.js 160-164 and 295-299 *)

Definition _write (e : SSE) (packet : string) : bool * SSE :=
  match res e with
  | None => (false, e)
  | Some s =>
      let '(ok, s') := sink_write (packet +:+ LF) s in
      (ok, with_res (Some s') e)
  end.

(** *** [retry], index.js 110-112 and 245-247 *)

Definition retry (e : SSE) (interval : JS.value) : bool * SSE :=
  _write e (format e "retry" interval).

(** *** [write], index.js 135-152 and 270-287

    The argument is an array of values or a single value. *)

Inductive Msg :=
| One (v : JS.value)
| Many (vs : list JS.value).

Definition as_array (msg : Msg) : list JS.value :=
  match msg with
  | One v => [v]
  | Many vs => vs
  end.

(** The [for] loop: [payload += this.format('data', msg[i])]. *)
Definition data_frames (e : SSE) (vs : list JS.value) : string :=
  fold_left (λ payload v, payload +:+ format e "data" v) vs "".

Definition storage_set (n : N) (payload : string) (e : SSE) : SSE :=
  match storage e with
  | Some st => with_storage (Some (st ++ [(n, payload)])) e
  | None => e
  end.

Definition write (e : SSE) (msg : Msg) : bool * SSE :=
  let payload := data_frames e (as_array msg) in
  if JS.truthy (legacy_flag e) then
    _write e (format e "Event" (JS.Str "sse"))
  else if numbering e then
    let e1 := storage_set (id e) payload e in
    let payload := format e1 "id" (JS.Num (id e1)) +:+ payload in
    let e2 := with_id (id e1 + 1) e1 in
    _write e2 payload
  else _write e payload.

(** *** [accept]

    Both copies set the status and the four framing headers and read the
    resume header; the first copy (index.js 80-101) also announces the
    negotiated encoding.  [this.res.statusCode = 200] throws when no
    sink is attached, and the first [this.res.setHeader(...)] throws when
    the sink is a zlib stream, which has no such method. *)

Definition content_type (e : SSE) : string :=
  if JS.truthy (legacy_flag e)
  then "text/x-dom-event-stream"
  else "text/event-stream".

Definition framing_headers (e : SSE) (s : Sink) : Sink :=
  setHeader "Content-Type" (content_type e)
    (setHeader "Connection" "keep-alive"
      (setHeader "Cache-Control" "no-cache"
        (setHeader "Transfer-Encoding" "chunked"
          (set_statusCode 200 s)))).

(** [if (!req.headers['last-event-id']) return;
     this.lastEventId = +req.headers['last-event-id'];] *)
Definition read_last_event_id (req : Request) (e : SSE) : SSE :=
  let h := JS.get (req_headers req) "last-event-id" in
  if JS.truthy h
  then with_lastEventId (Some (Number.of_string (JS.to_string h))) e
  else e.

Section collaborators.

(** [url-parse] (first copy) or [url.parse] (second copy), called
    with query parsing on. *)
Variable parse : string → Url.
(** [zipline(req)]: the encoding to use, or a falsy value. *)
Variable zipline : Request → JS.value.
(** [res.pipe(zlib.createX())]: the buffer and the answers of the zlib
    stream that is handed back. *)
Variable pipe : Sink → Codec → Sink.
(** [vary(res, field)] rewrites the [Vary] header from its previous
    value and the field. *)
Variable vary_value : option string → string → string.

Definition vary (field : string) (s : Sink) : Sink :=
  setHeader "Vary" (vary_value (sent s !! "Vary") field) s.

(** [compress], index.js 30-37. *)
Definition codec_of (enc : JS.value) : option Codec :=
  match enc with
  | JS.Str s =>
      if decide (s = "deflate") then Some Deflate
      else if decide (s = "raw") then Some DeflateRaw
      else if decide (s = "gzip") then Some Gzip
      else None
  | _ => None
  end.

Definition compress (enc : JS.value) (r : Sink) : Sink :=
  match codec_of enc with
  | Some c => zlib c (pipe r c)
  | None => r
  end.

(** First copy, index.js 80-101. *)
Definition accept (e : SSE) (req : Request) : JS.completion SSE :=
  match res e with
  | None => JS.Throw JS.TypeError
  | Some s =>
      if codec s is Some _ then JS.Throw JS.TypeError else
      let s := framing_headers e s in
      let s := if JS.truthy (encoding e)
               then vary "Content-Encoding"
                      (setHeader "Content-Encoding"
                         (JS.to_string (encoding e)) s)
               else s in
      JS.Normal (read_last_event_id req (with_res (Some s) e))
  end.

(** Second copy, index.js 222-236. *)
Definition accept2 (e : SSE) (req : Request) : JS.completion SSE :=
  match res e with
  | None => JS.Throw JS.TypeError
  | Some s =>
      if codec s is Some _ then JS.Throw JS.TypeError else
      JS.Normal (read_last_event_id req
                   (with_res (Some (framing_headers e s)) e))
  end.

(** The constructor of the first copy, index.js 49-70.  [compress]
    returns the response itself exactly when it pipes into no codec,
    which is what [this.res === res] tests; otherwise [this.res] is the
    zlib stream. *)
Definition new (req : Request) (r : Sink) (o : Options)
    : JS.completion SSE :=
  let zipable := zipline req in
  let u := parse (req_url req) in
  l ← legacy (query u) (headers r);
  let e := {| id := 0; lastEventId := None;
              encoding := match codec_of zipable with
                          | Some _ => zipable
                          | None => JS.Null
                          end;
              res := Some (compress zipable r);
              url := u;
              numbering := JS.is_true (opt_numbering o);
              legacy_flag := l;
              storage := None |} in
  if JS.truthy (opt_manual o) then JS.Normal e else accept e req.

(** The constructor of the second copy, index.js 198-212. *)
Definition new2 (req : Request) (r : Sink) (o : Options)
    : JS.completion SSE :=
  let u := parse (req_url req) in
  l ← legacy (query u) (headers r);
  let e := {| id := 0; lastEventId := Some (Number.of_N 0);
              encoding := JS.Undefined;
              res := Some r;
              url := u;
              numbering := JS.is_true (opt_numbering o);
              legacy_flag := l;
              storage := None |} in
  if JS.truthy (opt_manual o) then JS.Normal e else accept2 e req.

End collaborators.

(** *** Runs of calls on one encoder *)

Inductive Call :=
| Write (msg : Msg)
| Retry (interval : JS.value).

Definition call (e : SSE) (c : Call) : bool * SSE :=
  match c with
  | Write msg => write e msg
  | Retry interval => retry e interval
  end.

Fixpoint run (e : SSE) (cs : list Call) : list bool * SSE :=
  match cs with
  | [] => ([], e)
  | c :: cs' =>
      let '(ok, e') := call e c in
      let '(oks, e'') := run e' cs' in
      (ok :: oks, e'')
  end.

(** What the sink has received. *)
Definition written (e : SSE) : list string :=
  match res e with
  | Some s => chunks s
  | None => []
  end.

End Encoder.

(** ** The client transport (ServerSentEvents) *)

Module Transport.

(** The four callbacks made once by the constructor and kept in
    [this.listen]. *)
Inductive Listener := on_data | on_error | on_close | on_open.

Global Instance Listener_eq_dec : EqDecision Listener.
Proof. solve_decision. Defined.

(** A connection object: either a native [EventSource], built from a url
    (which may be [null]) and the credentials flag, or the
    [<event-source>] element that the legacy markup creates. *)
Inductive Kind :=
| Native (target : option string) (withCredentials : bool)
| Element (src : option string) (elem_id : string).

Record Handle := {
  kind : Kind;
  closed : bool;
  bindings : list (string * Listener);
}.

(** What the page offers: whether [addEventStream] exists (which fixes
    [ServerSentEvents.legacy] when the module loads) and whether its
    connection objects have a [removeListener] method, as event emitters
    do and plain DOM objects do not. *)
Record Env := {
  legacy_api : bool;
  has_removeListener : bool;
}.

(** The state outside the transport object: the module level counter
    [unique], every connection object made so far (an object is named by
    its position), and the markup of the containers added to the
    document body. *)
Record World := {
  unique : N;
  handles : list Handle;
  markup : list string;
}.

Record ServerSentEvents := {
  noreconnect : bool;
  api : option nat;
  url : option string;
  div : option nat;
  listen : bool;
  data_fn : bool;
}.

Record Options := {
  opt_reconnect : JS.value;
  opt_manual : JS.value;
}.

Definition State : Type := World * ServerSentEvents.

Definition initial_world : World :=
  {| unique := 1; handles := []; markup := [] |}.

Definition with_api (a : option nat) (u : option string)
    (t : ServerSentEvents) : ServerSentEvents :=
  {| noreconnect := noreconnect t; api := a; url := u; div := div t;
     listen := listen t; data_fn := data_fn t |}.

Definition with_div (d : option nat) (t : ServerSentEvents)
    : ServerSentEvents :=
  {| noreconnect := noreconnect t; api := api t; url := url t; div := d;
     listen := listen t; data_fn := data_fn t |}.

Definition update_handle (i : nat) (f : Handle → Handle) (w : World)
    : World :=
  {| unique := unique w;
     handles := alter f i (handles w);
     markup := markup w |}.

Definition new_handle (k : Kind) (w : World) : nat * World :=
  (length (handles w),
   {| unique := unique w;
      handles := handles w ++ [{| kind := k; closed := false;
                                  bindings := [] |}];
      markup := markup w |}).

(** [addEventListener(name, fn)]: a binding that is already there is not
    added again. *)
Definition addEventListener (name : string) (l : Listener) (h : Handle)
    : Handle :=
  {| kind := kind h; closed := closed h;
     bindings := if decide ((name, l) ∈ bindings h) then bindings h
                 else bindings h ++ [(name, l)] |}.

(** [removeListener(name, fn)] on an object that has the method. *)
Definition removeListener (name : string) (l : Listener) (h : Handle)
    : Handle :=
  {| kind := kind h; closed := closed h;
     bindings := filter (λ b, b ≠ (name, l)) (bindings h) |}.

(** [close()] of a native connection; for the legacy element,
    [removeEventSource(url)] followed by [removeAttribute('src')]. *)
Definition shut (h : Handle) : Handle :=
  {| kind := match kind h with
             | Native u c => Native u c
             | Element _ i => Element None i
             end;
     closed := true;
     bindings := bindings h |}.

(** A text between double quotes. *)
Definition quoted (s : string) : string :=
  String "034"%char s +:+ String "034"%char "".

Definition truthy_url (u : option string) : bool :=
  match u with
  | Some s => JS.truthy (JS.Str s)
  | None => false
  end.

Section env.

Variable env : Env.

(** [end], lines 138-151. *)
Definition end_ (st : State) : JS.completion State :=
  let '(w, t) := st in
  match api t with
  | None => JS.Normal st
  | Some a =>
      let w := update_handle a shut w in
      if has_removeListener env then
        let w := update_handle a (removeListener "message" on_data) w in
        let w := update_handle a (removeListener "error" on_error) w in
        let w := update_handle a (removeListener "open" on_open) w in
        let w := update_handle a (removeListener "sse" on_data) w in
        JS.Normal (w, t)
      else JS.Throw JS.TypeError
  end.

(** [initialize], lines 90-97.  The connection is built from
    [this.url]; the argument is stored afterwards. *)
Definition initialize (st : State) (u : option string)
    : JS.completion State :=
  let '(w, t) := st in
  let '(a, w) := new_handle (Native (url t) true) w in
  let t := with_api (Some a) (url t) t in
  if listen t then
    let w := update_handle a (addEventListener "message" on_data) w in
    JS.Normal (w, with_api (Some a) u t)
  else JS.Throw JS.TypeError.

(** [legacy], lines 105-131. *)
Definition legacy (st : State) (u : option string)
    : JS.completion State :=
  let '(w, t) := st in
  let ident := "_SSE_LEGACY=" +:+ pretty (unique w) in
  let w := {| unique := unique w + 1; handles := handles w;
              markup := markup w |} in
  match u with
  | None => JS.Throw JS.TypeError
  | Some s =>
      let u' := (if Str.contains "?"%char s then "&" else "?") +:+ ident in
      let d := length (markup w) in
      let w := {| unique := unique w; handles := handles w;
                  markup := markup w ++
                    ["<event-source src=" +:+ quoted u'
                       +:+ " id=" +:+ quoted ident +:+ ">"] |} in
      let t := with_div (Some d) t in
      let '(a, w) := new_handle (Element (Some u') ident) w in
      let t := with_api (Some a) (Some u') t in
      if listen t then
        JS.Normal (update_handle a (addEventListener "sse" on_data) w, t)
      else JS.Throw JS.TypeError
  end.

(** [open], lines 68-82. *)
Definition open (st : State) (u : option string) : JS.completion State :=
  st ← (if api (snd st) is Some _ then end_ st else JS.Normal st);
  let u := if truthy_url u then u else url (snd st) in
  st ← (if legacy_api env then legacy st u else initialize st u);
  let '(w, t) := st in
  match api t with
  | None => JS.Throw JS.TypeError
  | Some a =>
      if listen t then
        let w := update_handle a (addEventListener "error" on_error) w in
        let w := update_handle a (addEventListener "close" on_close) w in
        let w := update_handle a (addEventListener "open" on_open) w in
        JS.Normal (w, t)
      else JS.Throw JS.TypeError
  end.

(** [destroy], lines 158-166. *)
Definition destroy (st : State) : JS.completion State :=
  st ← end_ st;
  let '(w, t) := st in
  JS.Normal (w, {| noreconnect := noreconnect t; api := None;
                   url := None; div := div t; listen := false;
                   data_fn := data_fn t |}).

(** The constructor, lines 22-56; [fn] tells whether a data callback
    was given. *)
Definition new (w : World) (u : option string) (o : Options) (fn : bool)
    : JS.completion State :=
  let t := {| noreconnect :=
                match opt_reconnect o with
                | JS.Bool false => true
                | _ => false
                end;
              api := None; url := None; div := None;
              listen := true; data_fn := false |} in
  st ← (if JS.truthy (opt_manual o)
        then JS.Normal (w, with_api (api t) u t)
        else open (w, t) u);
  let '(w, t) := st in
  JS.Normal (w, {| noreconnect := noreconnect t; api := api t;
                   url := url t; div := div t; listen := listen t;
                   data_fn := fn |}).

End env.

(** Observations. *)

Definition handle_of (w : World) (a : nat) : option Handle :=
  handles w !! a.

Definition bound (w : World) (a : nat) (name : string) (l : Listener)
    : Prop :=
  match handle_of w a with
  | Some h => (name, l) ∈ bindings h
  | None => False
  end.

Definition is_live (w : World) (a : nat) : bool :=
  match handle_of w a with
  | Some h => negb (closed h)
  | None => false
  end.

Definition live (w : World) : list nat :=
  List.filter (is_live w) (seq 0 (length (handles w))).

End Transport.

(** ** The wire format, as the protocol description states it

  These definitions follow the description of the protocol, not the
  code: a frame is [key:value] and a line feed, a frame group ends with
  a blank line.  The encoder is compared with them below. *)

Module Wire.

Definition frame (key value : string) : string :=
  key +:+ ":" +:+ value +:+ LF.

Fixpoint data_frames (vs : list JS.value) : string :=
  match vs with
  | [] => ""
  | v :: vs' => frame "data" (JS.to_string v) +:+ data_frames vs'
  end.

(** An [id] frame, one [data] frame per value, a blank line. *)
Definition numbered_group (n : N) (msg : Encoder.Msg) : string :=
  frame "id" (pretty n) +:+ data_frames (Encoder.as_array msg) +:+ LF.

Definition plain_group (msg : Encoder.Msg) : string :=
  data_frames (Encoder.as_array msg) +:+ LF.

Definition retry_group (interval : JS.value) : string :=
  frame "retry" (JS.to_string interval) +:+ LF.

(** What a numbered standard stream carries for a run of calls when the
    next free sequence number is [n]: each [write] takes the next
    number, a [retry] takes none. *)
Fixpoint numbered_stream (n : N) (cs : list Encoder.Call) : list string :=
  match cs with
  | [] => []
  | Encoder.Write msg :: cs' =>
      numbered_group n msg :: numbered_stream (n + 1) cs'
  | Encoder.Retry i :: cs' => retry_group i :: numbered_stream n cs'
  end.

Definition is_write (c : Encoder.Call) : bool :=
  match c with
  | Encoder.Write _ => true
  | Encoder.Retry _ => false
  end.

(** A line that is an [id] frame. *)
Definition is_id_line (l : string) : bool := Str.starts_with "id:" l.

Definition has_id_frame (chunk : string) : bool :=
  existsb is_id_line (Str.lines chunk).

End Wire.

(** ** One call, taken apart

  A call on the encoder changes the encoder's own fields and then hands
  one packet to [_write].  [Step.packet] and [Step.after] name the two
  parts; [call_split] below shows that they are what the code does. *)

Module Step.

Import Encoder.

Definition packet (e : SSE) (c : Call) : string :=
  match c with
  | Retry interval => format e "retry" interval
  | Write msg =>
      if JS.truthy (legacy_flag e) then format e "Event" (JS.Str "sse")
      else if numbering e then
        format e "id" (JS.Num (id e)) +:+ data_frames e (as_array msg)
      else data_frames e (as_array msg)
  end.

Definition after (e : SSE) (c : Call) : SSE :=
  match c with
  | Retry _ => e
  | Write msg =>
      if JS.truthy (legacy_flag e) then e
      else if numbering e then
        with_id (id e + 1)
          (storage_set (id e) (data_frames e (as_array msg)) e)
      else e
  end.

(** The values a call prints. *)
Definition values (c : Call) : list JS.value :=
  match c with
  | Write msg => as_array msg
  | Retry interval => [interval]
  end.

Definition newline_free (c : Call) : bool :=
  forallb (λ v, negb (Str.has_newline (JS.to_string v))) (values c).

(** The sink after it took one more chunk. *)
Definition fed (chunk : string) (s : Sink) : Sink :=
  snd (sink_write chunk s).

End Step.

(** ** Sample objects *)

Module Sample.

Import Encoder.

(** A response that takes every chunk and has an empty [headers]
    object. *)
Definition sink : Sink :=
  {| statusCode := None; headers := Some ∅; sent := ∅; chunks := [];
     flushed := λ _ _, true; codec := None |}.

(** An encoder as the constructor leaves it, for a given dialect and
    numbering option. *)
Definition encoder (numbered : bool) (flag : JS.value) : SSE :=
  {| id := 0; lastEventId := None; encoding := JS.Null;
     res := Some sink; url := {| query := ∅ |};
     numbering := numbered; legacy_flag := flag; storage := None |}.

Definition ab_then_c : list Call :=
  [Write (Many [JS.Str "a"; JS.Str "b"]); Write (One (JS.Str "c"))].

Definition request (hs : list (string * string)) : Request :=
  {| req_url := "/stream"; req_headers := list_to_map hs |}.

Definition opera_9_50 : string := "Opera/9.50 (Windows NT 5.1; U; en)".

(** Collaborators for closed examples: no query, no compression. *)
Definition parse (u : string) : Url := {| query := ∅ |}.
Definition zipline (r : Request) : JS.value := JS.Undefined.
Definition pipe (s : Sink) (c : Codec) : Sink := s.
Definition vary_value (old : option string) (field : string) : string :=
  field.

Definition options : Options :=
  {| opt_numbering := JS.Bool true; opt_manual := JS.Undefined |}.

(** What the second copy's constructor returns for a request without
    headers. *)
Definition second_copy_encoder : SSE :=
  {| id := 0; lastEventId := Some (Number.of_N 0);
     encoding := JS.Undefined;
     res := Some (framing_headers (encoder true JS.Undefined) sink);
     url := {| query := ∅ |}; numbering := true;
     legacy_flag := JS.Undefined; storage := None |}.

(** Pages: one with the native API only, one with the legacy API; the
    connection objects of both have [removeListener]. *)
Definition native_page : Transport.Env :=
  {| Transport.legacy_api := false; Transport.has_removeListener := true |}.
Definition legacy_page : Transport.Env :=
  {| Transport.legacy_api := true; Transport.has_removeListener := true |}.
(** A page whose connection objects are plain DOM objects. *)
Definition dom_page : Transport.Env :=
  {| Transport.legacy_api := false; Transport.has_removeListener := false |}.

Definition auto_open : Transport.Options :=
  {| Transport.opt_reconnect := JS.Undefined;
     Transport.opt_manual := JS.Undefined |}.
Definition manual_open : Transport.Options :=
  {| Transport.opt_reconnect := JS.Undefined;
     Transport.opt_manual := JS.Bool true |}.

(** [new ServerSentEvents(u1)] followed by [open(u2)]. *)
Definition open_twice (env : Transport.Env) (o : Transport.Options)
    (u1 u2 : string) : JS.completion Transport.State :=
  st ← Transport.new env Transport.initial_world (Some u1) o false;
  Transport.open env st (Some u2).

End Sample.

(** ** Reference streams for the other modes, the store and the sink's
    answers *)

Module Log.

Import Encoder.

(** What a numbered standard run hands to the store when the next free
    sequence number is [n]: one entry per [write], keyed by its number,
    holding its data frames. *)
Fixpoint stored (n : N) (cs : list Call) : list (N * string) :=
  match cs with
  | [] => []
  | Write msg :: cs' =>
      (n, Wire.data_frames (as_array msg)) :: stored (n + 1) cs'
  | Retry _ :: cs' => stored n cs'
  end.

(** The chunk of one call in the legacy dialect. *)
Definition legacy_chunk (c : Call) : string :=
  match c with
  | Write _ => "Event: sse" +:+ LF +:+ LF
  | Retry i => "retry: " +:+ JS.to_string i +:+ LF +:+ LF
  end.

(** The chunk of one call in the standard dialect without numbering. *)
Definition plain_chunk (c : Call) : string :=
  match c with
  | Write msg => Wire.plain_group msg
  | Retry i => Wire.retry_group i
  end.

(** The answers a sink gives when it is handed the chunks one after the
    other. *)
Fixpoint answers (s : Sink) (new : list string) : list bool :=
  match new with
  | [] => []
  | chunk :: new' =>
      flushed s (chunks s) chunk :: answers (Step.fed chunk s) new'
  end.

(** Line feeds inside the printed values. *)
Definition newlines (vs : list JS.value) : nat :=
  sum_list ((λ v, Str.count LF_char (JS.to_string v)) <$> vs).

End Log.

Module Sample2.

Import Encoder.

(** A response object without a [headers] property. *)
Definition bare_sink : Sink :=
  {| statusCode := None; headers := None; sent := ∅; chunks := [];
     flushed := λ _ _, true; codec := None |}.

(** A sink that refuses every chunk. *)
Definition full_sink : Sink :=
  {| statusCode := None; headers := Some ∅; sent := ∅; chunks := [];
     flushed := λ _ _, false; codec := None |}.

(** A url parser that finds the legacy marker. *)
Definition parse_marker (u : string) : Url :=
  {| query := {[ "_SSE_LEGACY" := "1" ]} |}.

Definition gzip (r : Request) : JS.value := JS.Str "gzip".

Definition manual : Options :=
  {| opt_numbering := JS.Bool true; opt_manual := JS.Bool true |}.

Definition stored_encoder : SSE :=
  with_storage (Some []) (Sample.encoder true JS.Undefined).

End Sample2.

(** ** Observations on connections *)

Module Conn.

Import Transport.

(** The four [removeListener] calls of [end] after the connection was
    shut, as one change of the connection object. *)
Definition ended (h : Handle) : Handle :=
  removeListener "sse" on_data
    (removeListener "open" on_open
      (removeListener "error" on_error
        (removeListener "message" on_data (shut h)))).

(** The bindings that [end] asks to remove. *)
Definition detached : list (string * Listener) :=
  [("message", on_data); ("error", on_error); ("open", on_open);
   ("sse", on_data)].

(** The event that carries the data under each strategy. *)
Definition message_event (env : Env) : string :=
  if legacy_api env then "sse" else "message".

(** The bindings of a freshly opened connection, in the order in which
    [open] attaches them. *)
Definition full_set (env : Env) : list (string * Listener) :=
  [(message_event env, on_data); ("error", on_error);
   ("close", on_close); ("open", on_open)].

(** No connection is live except the one the transport holds. *)
Definition single_live (st : State) : Prop :=
  ∀ a, is_live (fst st) a = true → api (snd st) = Some a.

(** The element id of a legacy connection. *)
Definition marker_of (h : Handle) : option string :=
  match kind h with
  | Element _ i => Some i
  | Native _ _ => None
  end.

Definition markers (w : World) : list string := omap marker_of (handles w).

(** The id minted for the counter value [n]. *)
Definition marker (n : N) : string := "_SSE_LEGACY=" +:+ pretty n.

(** Every element id in the world was minted from a counter value that
    is already used up, and no id occurs twice. *)
Definition markers_fresh (w : World) : Prop :=
  NoDup (markers w)
  ∧ ∀ i, i ∈ markers w → ∃ n, n < unique w ∧ i = marker n.

End Conn.

Module Opened.

Import Transport.

(** A native connection with its four bindings, and a transport that
    holds it. *)
Definition connection : Handle :=
  {| kind := Native None true; closed := false;
     bindings := Conn.full_set Sample.native_page |}.

Definition world : World :=
  {| unique := 1; handles := [connection]; markup := [] |}.

Definition transport : ServerSentEvents :=
  {| noreconnect := false; api := Some 0%nat; url := Some "/a";
     div := None; listen := true; data_fn := false |}.

(** The same after [end], and the transport after [destroy]. *)
Definition ended_world : World := update_handle 0 Conn.ended world.

Definition retired : ServerSentEvents :=
  {| noreconnect := false; api := None; url := None;
     div := None; listen := false; data_fn := false |}.

(** A transport as the constructor starts it, before it opens. *)
Definition fresh : ServerSentEvents :=
  {| noreconnect := false; api := None; url := None; div := None;
     listen := true; data_fn := false |}.

(** The state after a further [open("/b")] under the native strategy. *)
Definition reopened : State :=
  match open Sample.native_page (world, transport) (Some "/b") with
  | JS.Normal st => st
  | JS.Throw _ => (world, transport)
  end.

(** Two [open] calls in a row under the legacy strategy, starting from
    an empty page. *)
Definition legacy_first : State :=
  match open Sample.legacy_page (initial_world, fresh) (Some "/a") with
  | JS.Normal st => st
  | JS.Throw _ => (initial_world, fresh)
  end.

Definition legacy_second : State :=
  match open Sample.legacy_page legacy_first (Some "/b") with
  | JS.Normal st => st
  | JS.Throw _ => legacy_first
  end.

End Opened.

(** * Properties *)

(** ** Strings *)

Section strings.

Implicit Types (s t u : string) (c : ascii).

Lemma str_app_cons c s t : String c s +:+ t = String c (s +:+ t).
Proof. reflexivity. Qed.

Lemma str_app_nil_l s : "" +:+ s = s.
Proof. reflexivity. Qed.

Lemma str_app_nil_r s : s +:+ "" = s.
Proof. induction s as [|c s IH]; [done|]. by rewrite str_app_cons, IH. Qed.

Lemma str_app_assoc s t u : (s +:+ t) +:+ u = s +:+ (t +:+ u).
Proof. induction s as [|c s IH]; [done|]. by rewrite !str_app_cons, IH. Qed.

Lemma count_app c s t :
  Str.count c (s +:+ t) = (Str.count c s + Str.count c t)%nat.
Proof.
  induction s as [|d s IH]; [done|].
  rewrite str_app_cons. simpl. rewrite IH. lia.
Qed.

Lemma last_app_cons s c t : Str.last (s +:+ String c t) = Str.last (String c t).
Proof.
  induction s as [|d s IH]; [done|].
  rewrite str_app_cons. simpl. rewrite IH.
  destruct (s +:+ String c t) eqn:E; [|done].
  by destruct s.
Qed.

Lemma last_LF s : Str.last (s +:+ LF) = Some LF_char.
Proof. unfold LF. by rewrite last_app_cons. Qed.

(** A line without a line feed, followed by a line feed, is the first
    line of the text. *)
Lemma lines_app_LF s t :
  Str.count LF_char s = 0%nat →
  Str.lines (s +:+ LF +:+ t) = s :: Str.lines t.
Proof.
  induction s as [|c s IH]; intros Hs.
  - rewrite str_app_nil_l. unfold LF. by rewrite str_app_cons, str_app_nil_l.
  - simpl in Hs. rewrite str_app_cons. simpl.
    case_decide; [lia|]. rewrite IH by lia. done.
Qed.

Lemma has_newline_false s :
  Str.has_newline s = false ↔ Str.count LF_char s = 0%nat.
Proof.
  unfold Str.has_newline. rewrite bool_decide_eq_false. lia.
Qed.

Lemma strip_app p s : Str.strip p (p +:+ s) = Some s.
Proof.
  induction p as [|c p IH]; [done|].
  rewrite str_app_cons. simpl. by rewrite decide_True.
Qed.

Lemma strip_Some p s r : Str.strip p s = Some r ↔ s = p +:+ r.
Proof.
  split; [|intros ->; apply strip_app].
  revert s. induction p as [|c p IH]; intros s H.
  - simpl in H. destruct s; by simplify_eq.
  - destruct s as [|d s]; [done|]. simpl in H.
    case_decide; [|done]. subst. rewrite str_app_cons. f_equal. by apply IH.
Qed.

(** Decimal numerals hold digits only. *)
Lemma pretty_N_go_count c x s :
  (∀ d, pretty_N_char d ≠ c) →
  Str.count c (pretty_N_go x s) = Str.count c s.
Proof.
  intros Hc. revert s.
  induction (N.lt_wf_0 x) as [x _ IH]; intros s.
  destruct (decide (x = 0)) as [->|Hx]; [by rewrite pretty_N_go_0|].
  rewrite pretty_N_go_step by lia.
  rewrite IH by (apply N.div_lt; lia).
  simpl. rewrite decide_False; [done|apply Hc].
Qed.

Lemma pretty_N_no_LF (n : N) : Str.count LF_char (pretty n) = 0%nat.
Proof.
  unfold pretty, pretty_N. case_decide; [done|].
  rewrite pretty_N_go_count; [done|].
  intros d. unfold pretty_N_char. by repeat case_match.
Qed.

End strings.

(** ** The encoder *)

Section encoder.

Import Encoder.
Implicit Types (e : SSE) (s : Sink) (c : Call) (msg : Msg).

(** *** format *)

Lemma format_standard e key v :
  JS.truthy (legacy_flag e) = false →
  format e key v = Wire.frame key (JS.to_string v).
Proof. unfold format, Wire.frame. by intros ->. Qed.

Lemma format_legacy e key v :
  JS.truthy (legacy_flag e) = true →
  format e key v = key +:+ ": " +:+ JS.to_string v +:+ LF.
Proof. unfold format. by intros ->. Qed.

Lemma format_flag e e' key v :
  legacy_flag e' = legacy_flag e → format e' key v = format e key v.
Proof. unfold format. by intros ->. Qed.

Lemma data_frames_fold e vs acc :
  JS.truthy (legacy_flag e) = false →
  fold_left (λ payload v, payload +:+ format e "data" v) vs acc
  = acc +:+ Wire.data_frames vs.
Proof.
  intros H. revert acc.
  induction vs as [|v vs IH]; intros acc; simpl.
  - by rewrite str_app_nil_r.
  - by rewrite IH, format_standard, str_app_assoc.
Qed.

Lemma data_frames_standard e vs :
  JS.truthy (legacy_flag e) = false →
  data_frames e vs = Wire.data_frames vs.
Proof. intros H. unfold data_frames. by rewrite data_frames_fold. Qed.

(** *** One call *)

Lemma _write_None e p : res e = None → _write e p = (false, e).
Proof. unfold _write. by intros ->. Qed.

Lemma _write_Some e s p :
  res e = Some s →
  _write e p = (flushed s (chunks s) (p +:+ LF),
                with_res (Some (Step.fed (p +:+ LF) s)) e).
Proof. unfold _write. by intros ->. Qed.

Lemma call_split e c : call e c = _write (Step.after e c) (Step.packet e c).
Proof.
  destruct c as [msg|i]; [|done].
  unfold call, write, Step.after, Step.packet.
  destruct (JS.truthy (legacy_flag e)); [done|].
  destruct (numbering e); [|done].
  unfold storage_set. by destruct (storage e).
Qed.

Lemma after_res e c : res (Step.after e c) = res e.
Proof.
  destruct c as [msg|i]; [|done]. unfold Step.after.
  destruct (JS.truthy (legacy_flag e)); [done|].
  destruct (numbering e); [|done].
  unfold storage_set. by destruct (storage e).
Qed.

Lemma after_flags e c :
  legacy_flag (Step.after e c) = legacy_flag e
  ∧ numbering (Step.after e c) = numbering e.
Proof.
  destruct c as [msg|i]; [|done]. unfold Step.after.
  destruct (JS.truthy (legacy_flag e)); [done|].
  destruct (numbering e) eqn:Hn; [|done].
  unfold storage_set. by destruct (storage e).
Qed.

Lemma after_id e c :
  id (Step.after e c)
  = if Wire.is_write c && numbering e && negb (JS.truthy (legacy_flag e))
    then id e + 1 else id e.
Proof.
  destruct c as [msg|i]; [|done]. unfold Step.after. simpl.
  destruct (JS.truthy (legacy_flag e)); [by rewrite andb_false_r|].
  destruct (numbering e); [|done].
  unfold storage_set. by destruct (storage e).
Qed.

Lemma call_id e c : id (snd (call e c)) = id (Step.after e c).
Proof.
  rewrite call_split. unfold _write.
  destruct (res (Step.after e c)); [|done]. by destruct (sink_write _ _).
Qed.

Lemma call_Some e s c :
  res e = Some s →
  call e c
  = (flushed s (chunks s) (Step.packet e c +:+ LF),
     with_res (Some (Step.fed (Step.packet e c +:+ LF) s)) (Step.after e c)).
Proof.
  intros H. rewrite call_split. apply _write_Some. by rewrite after_res.
Qed.

Lemma call_None e c :
  res e = None → call e c = (false, Step.after e c).
Proof.
  intros H. rewrite call_split. apply _write_None. by rewrite after_res.
Qed.

(** In the standard dialect with numbering the packet is the frame group
    of the description. *)
Lemma packet_numbered e c :
  numbering e = true → JS.truthy (legacy_flag e) = false →
  Step.packet e c +:+ LF
  = match c with
    | Write msg => Wire.numbered_group (id e) msg
    | Retry i => Wire.retry_group i
    end.
Proof.
  intros Hn Hl. destruct c as [msg|i]; simpl.
  - rewrite Hl, Hn, format_standard, data_frames_standard by done.
    unfold Wire.numbered_group. by rewrite str_app_assoc.
  - by rewrite format_standard.
Qed.

(** Without numbering the standard packet is the data frames alone. *)
Lemma packet_plain e msg :
  numbering e = false → JS.truthy (legacy_flag e) = false →
  Step.packet e (Write msg) +:+ LF = Wire.plain_group msg.
Proof.
  intros Hn Hl. simpl. by rewrite Hl, Hn, data_frames_standard.
Qed.

Lemma run_cons e c cs : snd (run e (c :: cs)) = snd (run (snd (call e c)) cs).
Proof.
  simpl. destruct (call e c) as [ok e']. simpl.
  by destruct (run e' cs).
Qed.

Lemma run_numbered e s cs :
  numbering e = true → JS.truthy (legacy_flag e) = false →
  res e = Some s →
  written (snd (run e cs)) = chunks s ++ Wire.numbered_stream (id e) cs
  ∧ id (snd (run e cs))
    = id e + N.of_nat (length (List.filter Wire.is_write cs)).
Proof.
  revert e s. induction cs as [|c cs IH]; intros e s Hn Hl Hs.
  - simpl. unfold written. rewrite Hs, app_nil_r. split; [done|lia].
  - rewrite run_cons, (call_Some e s) by done. simpl snd.
    destruct (after_flags e c) as [Hl' Hn'].
    destruct (IH (with_res (Some (Step.fed (Step.packet e c +:+ LF) s))
                    (Step.after e c))
                 (Step.fed (Step.packet e c +:+ LF) s))
      as [IHw IHi]; [simpl; congruence..|done|].
    rewrite IHw, IHi. simpl id. simpl chunks.
    rewrite after_id, Hn, Hl, packet_numbered by done.
    rewrite <- app_assoc. simpl.
    destruct c as [msg|i]; simpl; split; try done; lia.
Qed.

End encoder.

(** ** Claims about the encoder's output *)

Section encoder_claims.

Import Encoder.
Implicit Types (e : SSE) (s : Sink) (c : Call) (msg : Msg).

Lemma numbered_stream_lookup n cs p msg :
  cs !! p = Some (Write msg) →
  Wire.numbered_stream n cs !! p
  = Some (Wire.numbered_group
            (n + N.of_nat (length (List.filter Wire.is_write (take p cs))))
            msg).
Proof.
  revert n p. induction cs as [|c cs IH]; intros n p H; [done|].
  destruct p as [|p]; simpl in H.
  - simplify_eq. simpl. by rewrite N.add_0_r.
  - destruct c as [m|i]; simpl.
    + rewrite (IH (n + 1) p) by done. do 2 f_equal. lia.
    + by rewrite (IH n p) by done.
Qed.

(** C1.  On an encoder with numbering enabled, the standard dialect and
    the counter at 0, a run of calls puts exactly one chunk per call on
    the wire; the chunk of a [write] is an [id] frame, one [data] frame
    per value in order and a blank line, and the [id] it carries is the
    number of [write] calls made before it, so the ids are 0, 1, 2, ...
    without a gap. *)
Theorem write_numbers_frame_groups e s cs :
  numbering e = true → JS.truthy (legacy_flag e) = false →
  id e = 0 → res e = Some s →
  written (snd (run e cs)) = chunks s ++ Wire.numbered_stream 0 cs
  ∧ (∀ p msg, cs !! p = Some (Write msg) →
       written (snd (run e cs)) !! (length (chunks s) + p)%nat
       = Some (Wire.numbered_group
                 (N.of_nat (length (List.filter Wire.is_write (take p cs))))
                 msg))
  ∧ id (snd (run e cs)) = N.of_nat (length (List.filter Wire.is_write cs)).
Proof.
  intros Hn Hl Hi Hs.
  destruct (run_numbered e s cs Hn Hl Hs) as [Hw Hid].
  rewrite Hi in Hw, Hid. split_and!; [done| |by rewrite Hid].
  intros p msg Hp. rewrite Hw, lookup_app_r by lia.
  replace (length (chunks s) + p - length (chunks s))%nat with p by lia.
  by rewrite (numbered_stream_lookup 0 cs p msg Hp).
Qed.

Lemma write_numbers_frame_groups_witness :
  written (snd (run (Sample.encoder true JS.Undefined) Sample.ab_then_c))
  = [ "id:0" +:+ LF +:+ "data:a" +:+ LF +:+ "data:b" +:+ LF +:+ LF;
      "id:1" +:+ LF +:+ "data:c" +:+ LF +:+ LF ].
Proof.
  exact (proj1 (write_numbers_frame_groups
                  (Sample.encoder true JS.Undefined) Sample.sink
                  Sample.ab_then_c eq_refl eq_refl eq_refl eq_refl)).
Defined.

(** C2.  In the legacy dialect [write] hands the sink exactly the chunk
    [Event: sse] followed by a blank line, whatever the message is, and
    changes nothing else: no value of the message and no sequence number
    reaches the wire, and the counter stays where it was. *)
Theorem legacy_write_fixed_frame e s msg :
  JS.truthy (legacy_flag e) = true → res e = Some s →
  write e msg
  = (flushed s (chunks s) ("Event: sse" +:+ LF +:+ LF),
     with_res (Some (Step.fed ("Event: sse" +:+ LF +:+ LF) s)) e)
  ∧ written (snd (write e msg))
    = chunks s ++ ["Event: sse" +:+ LF +:+ LF].
Proof.
  intros Hl Hs.
  assert (write e msg
          = (flushed s (chunks s) ("Event: sse" +:+ LF +:+ LF),
             with_res (Some (Step.fed ("Event: sse" +:+ LF +:+ LF) s)) e))
    as ->.
  { unfold write. rewrite Hl, (_write_Some e s) by done.
    by rewrite format_legacy. }
  done.
Qed.

Lemma legacy_write_fixed_frame_witness :
  written (snd (write (Sample.encoder true (JS.Bool true))
                  (Many [JS.Str "a"; JS.Str "b"])))
  = ["Event: sse" +:+ LF +:+ LF].
Proof.
  exact (proj2 (legacy_write_fixed_frame
                  (Sample.encoder true (JS.Bool true)) Sample.sink
                  (Many [JS.Str "a"; JS.Str "b"]) eq_refl eq_refl)).
Defined.

(** C3.  For a key and a value without a line feed, [format] returns
    the key, a colon, the value and a line feed, with one space after
    the colon in the legacy dialect and none in the standard dialect;
    the result is a single line: its only line feed is its last
    character. *)
Theorem format_one_line e key v :
  Str.has_newline key = false →
  Str.has_newline (JS.to_string v) = false →
  (JS.truthy (legacy_flag e) = true →
     format e key v = key +:+ ": " +:+ JS.to_string v +:+ LF)
  ∧ (JS.truthy (legacy_flag e) = false →
     format e key v = key +:+ ":" +:+ JS.to_string v +:+ LF)
  ∧ Str.count LF_char (format e key v) = 1%nat
  ∧ Str.last (format e key v) = Some LF_char
  ∧ Str.lines (format e key v)
    = [key +:+ ":" +:+ (if JS.truthy (legacy_flag e) then " " else "")
           +:+ JS.to_string v; ""].
Proof.
  intros Hk%has_newline_false Hv%has_newline_false.
  split_and!.
  - apply format_legacy.
  - apply format_standard.
  - unfold format. rewrite !count_app, Hk, Hv.
    by destruct (JS.truthy (legacy_flag e)).
  - unfold format. rewrite <- !str_app_assoc. apply last_LF.
  - unfold format.
    rewrite <- (str_app_nil_r LF), <- !str_app_assoc.
    rewrite str_app_assoc, lines_app_LF; [done|].
    rewrite !count_app, Hk, Hv.
    by destruct (JS.truthy (legacy_flag e)).
Qed.

Lemma format_one_line_witness :
  format (Sample.encoder false (JS.Bool true)) "retry" (JS.Num 1000)
  = "retry: 1000" +:+ LF
  ∧ format (Sample.encoder false JS.Undefined) "data" (JS.Str "a")
    = "data:a" +:+ LF.
Proof.
  split.
  - exact (proj1 (format_one_line (Sample.encoder false (JS.Bool true))
                    "retry" (JS.Num 1000) eq_refl eq_refl) eq_refl).
  - exact (proj1 (proj2 (format_one_line (Sample.encoder false JS.Undefined)
                    "data" (JS.Str "a") eq_refl eq_refl)) eq_refl).
Defined.

End encoder_claims.

Section encoder_invariants.

Import Encoder.
Implicit Types (e : SSE) (s : Sink) (c : Call) (msg : Msg).

(** Case analysis on the three things that decide whether a call is
    numbered. *)
Ltac by_numbering e c :=
  destruct (Wire.is_write c), (numbering e), (JS.truthy (legacy_flag e));
  simpl; intuition (congruence || lia).

Lemma frame_app key value rest :
  Wire.frame key value +:+ rest = (key +:+ ":" +:+ value) +:+ LF +:+ rest.
Proof. unfold Wire.frame. by rewrite !str_app_assoc. Qed.

Lemma format_app e key v rest :
  format e key v +:+ rest
  = (key +:+ ":" +:+ (if JS.truthy (legacy_flag e) then " " else "")
         +:+ JS.to_string v) +:+ LF +:+ rest.
Proof. unfold format. by rewrite !str_app_assoc. Qed.

Lemma values_newline_free vs v :
  forallb (λ v, negb (Str.has_newline (JS.to_string v))) (v :: vs) = true →
  Str.count LF_char (JS.to_string v) = 0%nat
  ∧ forallb (λ v, negb (Str.has_newline (JS.to_string v))) vs = true.
Proof.
  simpl. intros [Hv Hvs]%andb_true_iff. split; [|done].
  apply has_newline_false. by destruct (Str.has_newline _).
Qed.

Lemma lines_data_frames vs rest :
  forallb (λ v, negb (Str.has_newline (JS.to_string v))) vs = true →
  Str.lines (Wire.data_frames vs +:+ rest)
  = ((λ v, "data:" +:+ JS.to_string v) <$> vs) ++ Str.lines rest.
Proof.
  induction vs as [|v vs IH]; intros H; [done|].
  apply values_newline_free in H as [Hv Hvs].
  simpl Wire.data_frames.
  rewrite str_app_assoc, frame_app, lines_app_LF.
  - by rewrite IH.
  - by rewrite !count_app, Hv.
Qed.

Lemma data_lines_no_id vs :
  existsb Wire.is_id_line ((λ v, "data:" +:+ JS.to_string v) <$> vs) = false.
Proof.
  induction vs as [|v vs IH]; [done|].
  rewrite fmap_cons. cbn [existsb]. by rewrite IH.
Qed.

(** Which packets hold an [id] frame. *)
Lemma packet_id_frame e c :
  Step.newline_free c = true →
  Wire.has_id_frame (Step.packet e c +:+ LF)
  = Wire.is_write c && numbering e && negb (JS.truthy (legacy_flag e)).
Proof.
  intros Hc. unfold Wire.has_id_frame.
  destruct c as [msg|i]; cbn [Step.packet Wire.is_write andb].
  - cbn [Step.newline_free Step.values] in Hc.
    destruct (JS.truthy (legacy_flag e)) eqn:Hl.
    { rewrite andb_false_r, format_legacy by done. done. }
    rewrite andb_true_r. rewrite data_frames_standard by done.
    destruct (numbering e).
    + rewrite format_standard, str_app_assoc, frame_app by done.
      rewrite lines_app_LF; [done|].
      cbn [JS.to_string]. by rewrite !count_app, pretty_N_no_LF.
    + rewrite lines_data_frames by done.
      rewrite existsb_app, data_lines_no_id. done.
  - unfold Step.newline_free in Hc.
    apply values_newline_free in Hc as [Hi _].
    rewrite format_app, lines_app_LF.
    + by destruct (JS.truthy (legacy_flag e)).
    + rewrite !count_app, Hi. by destruct (JS.truthy (legacy_flag e)).
Qed.

(** The lines of a packet that are [id] frames, for values without line
    feeds: the one the encoder printed, with the counter's value. *)
Lemma data_lines_filter vs :
  List.filter Wire.is_id_line ((λ v, "data:" +:+ JS.to_string v) <$> vs)
  = [].
Proof.
  induction vs as [|v vs IH]; [done|].
  rewrite fmap_cons. cbn [List.filter]. by rewrite IH.
Qed.

Lemma packet_id_lines e c :
  Step.newline_free c = true →
  List.filter Wire.is_id_line (Str.lines (Step.packet e c +:+ LF))
  = if Wire.is_write c && numbering e && negb (JS.truthy (legacy_flag e))
    then ["id:" +:+ pretty (id e)] else [].
Proof.
  intros Hc.
  destruct c as [msg|i]; cbn [Step.packet Wire.is_write andb].
  - cbn [Step.newline_free Step.values] in Hc.
    destruct (JS.truthy (legacy_flag e)) eqn:Hl.
    { rewrite andb_false_r, format_legacy by done. done. }
    rewrite andb_true_r. rewrite data_frames_standard by done.
    destruct (numbering e).
    + rewrite format_standard, str_app_assoc, frame_app by done.
      rewrite lines_app_LF.
      * rewrite lines_data_frames by done. cbn [List.filter].
        replace (Wire.is_id_line ("id" +:+ ":" +:+ JS.to_string (JS.Num (id e))))
          with true by done.
        by rewrite List.filter_app, data_lines_filter.
      * cbn [JS.to_string]. by rewrite !count_app, pretty_N_no_LF.
    + rewrite lines_data_frames by done.
      by rewrite List.filter_app, data_lines_filter.
  - unfold Step.newline_free in Hc.
    apply values_newline_free in Hc as [Hi _].
    rewrite format_app, lines_app_LF.
    + by destruct (JS.truthy (legacy_flag e)).
    + rewrite !count_app, Hi. by destruct (JS.truthy (legacy_flag e)).
Qed.

(** Which packets begin with an [id] frame, whatever the values hold. *)
Lemma packet_head e c :
  Str.starts_with "id:" (Step.packet e c +:+ LF)
  = Wire.is_write c && numbering e && negb (JS.truthy (legacy_flag e)).
Proof.
  destruct c as [msg|i]; cbn [Step.packet Wire.is_write andb].
  - destruct (JS.truthy (legacy_flag e)) eqn:Hl.
    { rewrite andb_false_r, format_legacy by done. done. }
    rewrite andb_true_r. rewrite data_frames_standard by done.
    destruct (numbering e).
    + by rewrite format_standard by done.
    + by destruct (as_array msg).
  - unfold format. by destruct (JS.truthy (legacy_flag e)).
Qed.

Lemma run_id_mono e cs : id e ≤ id (snd (run e cs)).
Proof.
  revert e. induction cs as [|c cs IH]; intros e; [done|].
  rewrite run_cons. etrans; [|apply IH].
  rewrite call_id, after_id. case_match; lia.
Qed.

(** C8 (as stated, the claim fails on payloads that hold a line feed).
    Values are printed as they are, so a value that holds a line feed
    followed by [id:7] puts an [id] line on the wire in a [write] with
    numbering off, and in a [retry] frame of a legacy encoder. *)
Lemma payload_line_feed_puts_id_line_on_wire :
  numbering (Sample.encoder false JS.Undefined) = false
  ∧ written (snd (call (Sample.encoder false JS.Undefined)
                    (Write (One (JS.Str ("a" +:+ LF +:+ "id:7"))))))
    = ["data:a" +:+ LF +:+ "id:7" +:+ LF +:+ LF]
  ∧ Wire.has_id_frame ("data:a" +:+ LF +:+ "id:7" +:+ LF +:+ LF) = true
  ∧ written (snd (call (Sample.encoder true (JS.Bool true))
                    (Retry (JS.Str ("5" +:+ LF +:+ "id:7")))))
    = ["retry: 5" +:+ LF +:+ "id:7" +:+ LF +:+ LF]
  ∧ Wire.has_id_frame ("retry: 5" +:+ LF +:+ "id:7" +:+ LF +:+ LF) = true
  ∧ ¬ (∀ e c s chunk,
         res e = Some s →
         written (snd (call e c)) = chunks s ++ [chunk] →
         (Wire.has_id_frame chunk = true ↔
            Wire.is_write c = true ∧ numbering e = true
            ∧ JS.truthy (legacy_flag e) = false)).
Proof.
  split_and!; [done..|].
  intros H.
  destruct (H (Sample.encoder false JS.Undefined)
              (Write (One (JS.Str ("a" +:+ LF +:+ "id:7"))))
              Sample.sink
              ("data:a" +:+ LF +:+ "id:7" +:+ LF +:+ LF)
              eq_refl eq_refl) as [Hn _].
  by destruct (Hn eq_refl) as (_ & ? & _).
Qed.

(** C8 (amended).  The counter never goes down, over one call and over
    any run of calls; a call moves it (by one) exactly when it is a
    [write] on an encoder with numbering enabled and the standard
    dialect; exactly then the chunk the call puts on the wire begins
    with an [id] frame, and that frame carries the value the counter had
    before the call, followed by the data frames and the blank line.  So
    the encoder puts no [id] frame on a legacy frame or a [retry] frame,
    and neither moves the counter.  For values without line feeds that
    frame is the only [id] line of the chunk, and there is none in the
    other cases. *)
Theorem sequence_number_iff_numbered_standard e c :
  id e ≤ id (snd (call e c))
  ∧ (∀ cs, id e ≤ id (snd (run e cs)))
  ∧ (id (snd (call e c)) ≠ id e ↔
       Wire.is_write c = true ∧ numbering e = true
       ∧ JS.truthy (legacy_flag e) = false)
  ∧ (id (snd (call e c)) = id e + 1 ↔
       Wire.is_write c = true ∧ numbering e = true
       ∧ JS.truthy (legacy_flag e) = false)
  ∧ (∀ s, res e = Some s →
       ∃ chunk,
         written (snd (call e c)) = chunks s ++ [chunk]
         ∧ (Str.starts_with "id:" chunk = true ↔
              Wire.is_write c = true ∧ numbering e = true
              ∧ JS.truthy (legacy_flag e) = false)
         ∧ (Wire.is_write c = true → numbering e = true →
            JS.truthy (legacy_flag e) = false →
              chunk = Wire.frame "id" (pretty (id e))
                        +:+ Wire.data_frames (Step.values c) +:+ LF)
         ∧ (Step.newline_free c = true →
              List.filter Wire.is_id_line (Str.lines chunk)
              = (if Wire.is_write c && numbering e
                    && negb (JS.truthy (legacy_flag e))
                 then ["id:" +:+ pretty (id e)] else [])
              ∧ (Wire.has_id_frame chunk = true ↔
                   Wire.is_write c = true ∧ numbering e = true
                   ∧ JS.truthy (legacy_flag e) = false))).
Proof.
  rewrite call_id, after_id.
  split_and!.
  - case_match; lia.
  - apply run_id_mono.
  - by_numbering e c.
  - by_numbering e c.
  - intros s Hs. exists (Step.packet e c +:+ LF).
    rewrite (call_Some e s) by done. split_and!; [done| | |].
    + rewrite packet_head. by_numbering e c.
    + intros Hw Hn Hl. destruct c as [msg|i]; [|done].
      by rewrite (packet_numbered e (Write msg)).
    + intros Hc. split; [by apply packet_id_lines|].
      rewrite packet_id_frame by done. by_numbering e c.
Qed.

Lemma sequence_number_iff_numbered_standard_witness :
  (∃ chunk,
     written (snd (call (Sample.encoder true JS.Undefined)
                     (Write (Many [JS.Str "a"; JS.Str "b"]))))
     = [chunk]
     ∧ chunk = "id:0" +:+ LF +:+ "data:a" +:+ LF +:+ "data:b" +:+ LF +:+ LF
     ∧ List.filter Wire.is_id_line (Str.lines chunk) = ["id:0"]
     ∧ id (snd (call (Sample.encoder true JS.Undefined)
                  (Write (Many [JS.Str "a"; JS.Str "b"])))) = 1)
  ∧ (∃ chunk,
       written (snd (call (Sample.encoder true JS.Undefined)
                       (Retry (JS.Num 1000))))
       = [chunk]
       ∧ List.filter Wire.is_id_line (Str.lines chunk) = []
       ∧ id (snd (call (Sample.encoder true JS.Undefined)
                    (Retry (JS.Num 1000)))) = 0)
  ∧ (∃ chunk,
       written (snd (call (Sample.encoder true (JS.Bool true))
                       (Write (One (JS.Str "a")))))
       = [chunk]
       ∧ List.filter Wire.is_id_line (Str.lines chunk) = []).
Proof.
  split; [|split].
  - destruct (sequence_number_iff_numbered_standard
                (Sample.encoder true JS.Undefined)
                (Write (Many [JS.Str "a"; JS.Str "b"])))
      as (_ & _ & _ & Hid & Hwire).
    destruct (Hwire Sample.sink eq_refl) as (chunk & Hw & _ & Hc & Hl).
    exists chunk. split_and!.
    + exact Hw.
    + exact (Hc eq_refl eq_refl eq_refl).
    + exact (proj1 (Hl eq_refl)).
    + exact (proj2 Hid (conj eq_refl (conj eq_refl eq_refl))).
  - destruct (sequence_number_iff_numbered_standard
                (Sample.encoder true JS.Undefined) (Retry (JS.Num 1000)))
      as (_ & _ & _ & _ & Hwire).
    destruct (Hwire Sample.sink eq_refl) as (chunk & Hw & _ & _ & Hl).
    exists chunk. split_and!; [exact Hw|exact (proj1 (Hl eq_refl))|done].
  - destruct (sequence_number_iff_numbered_standard
                (Sample.encoder true (JS.Bool true))
                (Write (One (JS.Str "a"))))
      as (_ & _ & _ & _ & Hwire).
    destruct (Hwire Sample.sink eq_refl) as (chunk & Hw & _ & _ & Hl).
    exists chunk. split; [exact Hw|exact (proj1 (Hl eq_refl))].
Defined.

(** C10.  [_write] hands the sink the packet with exactly one line feed
    added, in one [write] call, and returns the sink's answer; with no
    sink attached, [_write], [write] and [retry] return [false] and
    write nothing (none of them has a throwing path); with a sink
    attached, [write] and [retry] put one chunk on the wire and return
    the sink's answer to it. *)
Theorem flush_appends_blank_line e :
  (∀ packet, res e = None → _write e packet = (false, e))
  ∧ (∀ packet s, res e = Some s →
       _write e packet
       = (flushed s (chunks s) (packet +:+ LF),
          with_res (Some (Step.fed (packet +:+ LF) s)) e)
       ∧ chunks (Step.fed (packet +:+ LF) s) = chunks s ++ [packet +:+ LF])
  ∧ (∀ c, res e = None →
       fst (call e c) = false ∧ res (snd (call e c)) = None)
  ∧ (∀ c s, res e = Some s →
       fst (call e c) = flushed s (chunks s) (Step.packet e c +:+ LF)
       ∧ written (snd (call e c)) = chunks s ++ [Step.packet e c +:+ LF]).
Proof.
  split_and!.
  - intros packet. apply _write_None.
  - intros packet s Hs. by rewrite (_write_Some e s).
  - intros c Hs. rewrite call_None by done. simpl. by rewrite after_res.
  - intros c s Hs. by rewrite (call_Some e s).
Qed.

Lemma flush_appends_blank_line_witness :
  fst (call (with_res None (Sample.encoder true JS.Undefined))
         (Write (One (JS.Str "a")))) = false
  ∧ fst (call (Sample.encoder true JS.Undefined) (Retry (JS.Num 1000)))
    = true
  ∧ written (snd (call (Sample.encoder true JS.Undefined)
                    (Retry (JS.Num 1000))))
    = ["retry:1000" +:+ LF +:+ LF].
Proof.
  split.
  - exact (proj1 (proj1 (proj2 (proj2
             (flush_appends_blank_line
                (with_res None (Sample.encoder true JS.Undefined)))))
             (Write (One (JS.Str "a"))) eq_refl)).
  - exact (proj2 (proj2 (proj2
             (flush_appends_blank_line (Sample.encoder true JS.Undefined))))
             (Retry (JS.Num 1000)) Sample.sink eq_refl).
Defined.

End encoder_invariants.

(** ** Accepting a request *)

Section accept.

Import Encoder.
Implicit Types (e : SSE) (s : Sink) (req : Request).

Lemma read_last_event_id_res req e :
  res (read_last_event_id req e) = res e
  ∧ legacy_flag (read_last_event_id req e) = legacy_flag e.
Proof. unfold read_last_event_id. by case_match. Qed.

(** The resume header is stored whenever it is a non-empty text, as
    whatever number the text converts to; otherwise the field is left
    alone. *)
Lemma read_last_event_id_spec req e :
  lastEventId (read_last_event_id req e)
  = match req_headers req !! "last-event-id" with
    | Some h => if decide (h = "") then lastEventId e
                else Some (Number.of_string h)
    | None => lastEventId e
    end.
Proof.
  unfold read_last_event_id, JS.get.
  destruct (req_headers req !! "last-event-id") as [h|]; [|done].
  simpl. case_decide; [by rewrite bool_decide_eq_true_2|].
  by rewrite bool_decide_eq_false_2.
Qed.





End accept.

(** ** Dialect detection and the constructors *)

Section dialect.

Import Encoder.
Implicit Types (e : SSE) (s : Sink) (req : Request) (q h : gmap string string).

Lemma skip_non_slash_split r :
  ∃ mid, r = mid +:+ skip_non_slash r ∧ Str.count "/"%char mid = 0%nat.
Proof.
  induction r as [|c r (mid & Hr & Hmid)]; [by exists ""|].
  simpl. case_decide as Hc.
  - by exists "".
  - exists (String c mid). rewrite str_app_cons, <- Hr. split; [done|].
    simpl. by rewrite decide_False.
Qed.

Lemma skip_non_slash_app mid rest :
  Str.count "/"%char mid = 0%nat →
  skip_non_slash (mid +:+ String "/"%char rest) = String "/"%char rest.
Proof.
  induction mid as [|c mid IH]; intros H; [done|].
  simpl in H. rewrite str_app_cons. simpl.
  case_decide; [lia|]. apply IH. lia.
Qed.

(** X22.  The user agent test accepts exactly the texts that start with
    [Opera], go on with any number of characters other than a slash, and
    then have [/9]: it is the match of [/^Opera[^\/]*\/9/]. *)
Lemma opera9_spec ua :
  opera9 ua = true
  ↔ ∃ mid rest, ua = "Opera" +:+ mid +:+ "/9" +:+ rest
                ∧ Str.count "/"%char mid = 0%nat.
Proof.
  unfold opera9, Str.starts_with. split.
  - destruct (Str.strip "Opera" ua) as [r|] eqn:Hr; [|done].
    apply strip_Some in Hr as ->.
    destruct (Str.strip "/9" (skip_non_slash r)) as [rest|] eqn:Hrest;
      [|done].
    apply strip_Some in Hrest. intros _.
    destruct (skip_non_slash_split r) as (mid & Hmid & Hc).
    exists mid, rest. split; [|done]. by rewrite <- Hrest, <- Hmid.
  - intros (mid & rest & -> & Hc).
    rewrite strip_app.
    change ("/9" +:+ rest) with (String "/"%char (String "9"%char rest)).
    by rewrite skip_non_slash_app.
Qed.


(** Without the marker, a response that has no [headers] property makes
    the detection throw. *)
Lemma legacy_throws q :
  q !! "_SSE_LEGACY" = None → legacy q None = JS.Throw JS.TypeError.
Proof.
  intros Hq. unfold legacy. rewrite decide_False; [done|].
  rewrite Hq. by intros [? ?].
Qed.

(** [legacy] throws nothing but a [TypeError]. *)
Lemma legacy_error q hs err :
  legacy q hs = JS.Throw err → err = JS.TypeError.
Proof.
  unfold legacy. case_decide; [done|].
  destruct hs; [by case_match|]. by intros [= <-].
Qed.

Lemma accept_flag vary_value e req e' :
  accept vary_value e req = JS.Normal e' →
  legacy_flag e' = legacy_flag e ∧ id e' = id e
  ∧ lastEventId e' = lastEventId (read_last_event_id req e).
Proof.
  unfold accept. destruct (res e) as [s|]; [|done].
  destruct (codec s); [done|]. intros [= <-].
  unfold read_last_event_id. by case_match.
Qed.

Lemma accept2_flag e req e' :
  accept2 e req = JS.Normal e' →
  legacy_flag e' = legacy_flag e ∧ id e' = id e
  ∧ lastEventId e' = lastEventId (read_last_event_id req e).
Proof.
  unfold accept2. destruct (res e) as [s|]; [|done].
  destruct (codec s); [done|]. intros [= <-].
  unfold read_last_event_id. by case_match.
Qed.

(** The dialect an encoder ends up with is the answer of [legacy] on
    the query and on the [headers] of the response object; the
    request's own headers are never consulted. *)
Lemma new_dialect parse zipline pipe vary_value req r o e :
  new parse zipline pipe vary_value req r o = JS.Normal e →
  legacy (query (parse (req_url req))) (headers r)
  = JS.Normal (legacy_flag e).
Proof.
  unfold new.
  destruct (legacy _ _) as [l|]; [|done]. simpl.
  destruct (JS.truthy (opt_manual o)); [by intros [= <-]|].
  intros H%accept_flag. simpl in H. by destruct H as [-> _].
Qed.

Lemma new2_dialect parse req r o e :
  new2 parse req r o = JS.Normal e →
  legacy (query (parse (req_url req))) (headers r)
  = JS.Normal (legacy_flag e).
Proof.
  unfold new2.
  destruct (legacy _ _) as [l|]; [|done]. simpl.
  destruct (JS.truthy (opt_manual o)); [by intros [= <-]|].
  intros H%accept2_flag. simpl in H. by destruct H as [-> _].
Qed.

(** What decides whether a constructor completes once the dialect is
    known: with the [manual] option it does; without it [accept] runs
    on the held sink, which must be a response.  The first copy holds
    the zlib stream as soon as a codec is negotiated. *)
Lemma new_after_legacy parse zipline pipe vary_value req r o l :
  legacy (query (parse (req_url req))) (headers r) = JS.Normal l →
  (codec r = None → codec_of (zipline req) = None →
     ∃ e, new parse zipline pipe vary_value req r o = JS.Normal e)
  ∧ (JS.truthy (opt_manual o) = true →
     ∃ e, new parse zipline pipe vary_value req r o = JS.Normal e)
  ∧ (JS.truthy (opt_manual o) = false →
     is_Some (codec_of (zipline req)) →
     new parse zipline pipe vary_value req r o = JS.Throw JS.TypeError).
Proof.
  intros Hl. unfold new, compress. rewrite Hl. simpl. split_and!.
  - intros Hc Hz. rewrite Hz.
    destruct (JS.truthy (opt_manual o)); [by eexists|].
    unfold accept. simpl. rewrite Hc. by eexists.
  - intros ->. by eexists.
  - intros -> [c Hz]. rewrite Hz. by unfold accept.
Qed.

Lemma new2_after_legacy parse req r o l :
  legacy (query (parse (req_url req))) (headers r) = JS.Normal l →
  (codec r = None → ∃ e2, new2 parse req r o = JS.Normal e2)
  ∧ (JS.truthy (opt_manual o) = true →
     ∃ e2, new2 parse req r o = JS.Normal e2).
Proof.
  intros Hl. unfold new2. rewrite Hl. simpl. split.
  - intros Hc. destruct (JS.truthy (opt_manual o)); [by eexists|].
    unfold accept2. simpl. rewrite Hc. by eexists.
  - intros ->. by eexists.
Qed.

(** C4 (the code departs from the claim).  The constructor hands
    [legacy] the [headers] of the response, not those of the request.
    So a request from a client whose [User-Agent] matches the Opera 9
    signature, without the query marker, on a response whose [headers]
    object is empty, never gets the legacy dialect: every encoder
    either copy constructs for it has the standard dialect, and both
    copies do construct one, on a response with no codec negotiated and
    whenever the [manual] option is given. *)
Theorem dialect_ignores_request_user_agent
    parse zipline pipe vary_value req r o ua :
  req_headers req !! "user-agent" = Some ua → opera9 ua = true →
  query (parse (req_url req)) !! "_SSE_LEGACY" = None →
  headers r = Some ∅ →
  (∀ e, new parse zipline pipe vary_value req r o = JS.Normal e →
        JS.truthy (legacy_flag e) = false)
  ∧ (∀ e2, new2 parse req r o = JS.Normal e2 →
           JS.truthy (legacy_flag e2) = false)
  ∧ (JS.truthy (opt_manual o) = true
     ∨ (codec r = None ∧ codec_of (zipline req) = None) →
     ∃ e e2,
       new parse zipline pipe vary_value req r o = JS.Normal e
       ∧ JS.truthy (legacy_flag e) = false
       ∧ new2 parse req r o = JS.Normal e2
       ∧ JS.truthy (legacy_flag e2) = false).
Proof.
  intros _ _ Hq Hr.
  assert (legacy (query (parse (req_url req))) (headers r)
          = JS.Normal JS.Undefined) as Hl.
  { unfold legacy. rewrite Hr, decide_False; [done|].
    rewrite Hq. by intros [? ?]. }
  assert (∀ e, new parse zipline pipe vary_value req r o = JS.Normal e →
               JS.truthy (legacy_flag e) = false) as H1.
  { intros e H%new_dialect. rewrite Hl in H. by injection H as <-. }
  assert (∀ e2, new2 parse req r o = JS.Normal e2 →
                JS.truthy (legacy_flag e2) = false) as H2.
  { intros e H%new2_dialect. rewrite Hl in H. by injection H as <-. }
  destruct (new_after_legacy parse zipline pipe vary_value req r o _ Hl)
    as (Hn1 & Hn2 & _).
  destruct (new2_after_legacy parse req r o _ Hl) as (Hm1 & Hm2).
  split_and!; [done..|].
  intros [Hm|[Hc Hz]].
  - destruct (Hn2 Hm) as [e He], (Hm2 Hm) as [e2 He2].
    exists e, e2. split_and!; [done|by apply H1|done|by apply H2].
  - destruct (Hn1 Hc Hz) as [e He], (Hm1 Hc) as [e2 He2].
    exists e, e2. split_and!; [done|by apply H1|done|by apply H2].
Qed.

Lemma dialect_ignores_request_user_agent_witness :
  opera9 Sample.opera_9_50 = true
  ∧ ∃ e e2,
      new Sample.parse Sample.zipline Sample.pipe Sample.vary_value
        (Sample.request [("user-agent", Sample.opera_9_50)])
        Sample.sink Sample.options = JS.Normal e
      ∧ JS.truthy (legacy_flag e) = false
      ∧ new2 Sample.parse
          (Sample.request [("user-agent", Sample.opera_9_50)])
          Sample.sink Sample.options = JS.Normal e2
      ∧ JS.truthy (legacy_flag e2) = false.
Proof.
  split; [reflexivity|].
  exact (proj2 (proj2 (dialect_ignores_request_user_agent
           Sample.parse Sample.zipline Sample.pipe Sample.vary_value
           (Sample.request [("user-agent", Sample.opera_9_50)])
           Sample.sink Sample.options Sample.opera_9_50
           eq_refl eq_refl eq_refl eq_refl))
           (or_intror (conj eq_refl eq_refl))).
Defined.

(** Both constructors hand back an encoder with the counter at 0, a sink
    attached and numbering on exactly when the option is [true]. *)
Lemma new_fresh parse zipline pipe vary_value req r o e :
  new parse zipline pipe vary_value req r o = JS.Normal e →
  id e = 0 ∧ is_Some (res e) ∧ numbering e = JS.is_true (opt_numbering o).
Proof.
  unfold new. destruct (legacy _ _) as [l|]; [|done]. simpl.
  destruct (JS.truthy (opt_manual o)); [by intros [= <-]|].
  unfold accept. simpl. case_match; [done|]. intros [= <-].
  unfold read_last_event_id. by case_match.
Qed.

Lemma new2_fresh parse req r o e :
  new2 parse req r o = JS.Normal e →
  id e = 0 ∧ is_Some (res e) ∧ numbering e = JS.is_true (opt_numbering o).
Proof.
  unfold new2. destruct (legacy _ _) as [l|]; [|done]. simpl.
  destruct (JS.truthy (opt_manual o)); [by intros [= <-]|].
  unfold accept2. simpl. case_match; [done|]. intros [= <-].
  unfold read_last_event_id. by case_match.
Qed.

(** *** The resume state *)

(** The first copy does what the description says: a header [42] gives
    42, no header leaves the state unset, and any other non-empty text
    is stored as the number it converts to, [NaN] included. *)
Lemma first_copy_resume_state parse zipline pipe vary_value req r o e :
  new parse zipline pipe vary_value req r o = JS.Normal e →
  JS.truthy (opt_manual o) = false →
  lastEventId e
  = match req_headers req !! "last-event-id" with
    | Some h => if decide (h = "") then None
                else Some (Number.of_string h)
    | None => None
    end.
Proof.
  unfold new. intros H Hm.
  destruct (legacy _ _) as [l|]; [|done]. simpl in H.
  rewrite Hm in H. apply accept_flag in H as (_ & _ & ->).
  by rewrite read_last_event_id_spec.
Qed.

Example of_string_samples :
  Number.of_string "42" = Number.of_N 42
  ∧ Number.of_string " 42 " = Number.Fin false 42 0
  ∧ Number.of_string "4.2e1" = Number.Fin false 42 0
  ∧ Number.of_string "-7" = Number.Fin true 7 0
  ∧ Number.of_string ".5" = Number.Fin false 1 (-1)
  ∧ Number.of_string "9007199254740993" = Number.of_N 9007199254740992
  ∧ Number.of_string "1e1000" = Number.Infinity false
  ∧ Number.of_string "5e-324" = Number.Fin false 1 (-1074)
  ∧ Number.of_string "1e-400" = Number.of_N 0
  ∧ Number.of_string "0x1F" = Number.Fin false 31 0
  ∧ Number.of_string "-Infinity" = Number.Infinity true
  ∧ Number.of_string "0" = Number.of_N 0
  ∧ Number.of_string "abc" = Number.NaN
  ∧ Number.of_string "12abc" = Number.NaN
  ∧ Number.of_string "1e" = Number.NaN
  ∧ Number.of_string "." = Number.NaN
  ∧ Number.of_string "+0x10" = Number.NaN.
Proof. by vm_compute. Qed.

(** C7 (the second copy departs from the claim).  The second copy's
    constructor starts [lastEventId] at the number 0, so after
    construction on a request that carries no [Last-Event-ID] header
    the resume state is 0, the same as for a client that sent 0. *)
Theorem second_copy_resume_state_zero parse req r o e :
  new2 parse req r o = JS.Normal e →
  req_headers req !! "last-event-id" = None →
  lastEventId e = Some (Number.of_N 0).
Proof.
  unfold new2. intros H Hh.
  destruct (legacy _ _) as [l|]; [|done]. simpl in H.
  destruct (JS.truthy (opt_manual o)); [by injection H as <-|].
  apply accept2_flag in H as (_ & _ & ->).
  by rewrite read_last_event_id_spec, Hh.
Qed.

Lemma second_copy_resume_state_zero_witness :
  lastEventId Sample.second_copy_encoder = Some (Number.Fin false 0 0).
Proof.
  exact (second_copy_resume_state_zero Sample.parse (Sample.request [])
           Sample.sink Sample.options Sample.second_copy_encoder
           eq_refl eq_refl).
Defined.

End dialect.

(** ** The transport *)

Section transport.

Import Transport.
Implicit Types (w : World) (t : ServerSentEvents) (h : Handle) (a : nat).

Lemma bound_update_other w a a' f name l :
  a ≠ a' → bound (update_handle a' f w) a name l ↔ bound w a name l.
Proof.
  intros Hne. unfold bound, handle_of, update_handle. simpl.
  by rewrite list_lookup_alter_ne.
Qed.

Lemma bound_update_keep w a a' f name l :
  (∀ h, (name, l) ∈ bindings h → (name, l) ∈ bindings (f h)) →
  bound w a name l → bound (update_handle a' f w) a name l.
Proof.
  intros Hf. destruct (decide (a = a')) as [->|Hne].
  - unfold bound, handle_of, update_handle. simpl.
    rewrite list_lookup_alter_eq.
    destruct (handles w !! a') as [h|]; simpl; [apply Hf|done].
  - by rewrite bound_update_other.
Qed.

Lemma shut_keeps h b : b ∈ bindings h → b ∈ bindings (shut h).
Proof. done. Qed.

Lemma removeListener_keeps h b name l :
  b ≠ (name, l) → b ∈ bindings h → b ∈ bindings (removeListener name l h).
Proof.
  intros Hne Hb. unfold removeListener. simpl.
  apply list_elem_of_filter. by split.
Qed.

Lemma removeListener_removes h name l :
  (name, l) ∉ bindings (removeListener name l h).
Proof.
  unfold removeListener. simpl. rewrite list_elem_of_filter. tauto.
Qed.

(** [end] never detaches the [close] binding: whatever was bound to
    [close] on the connection stays bound to it, and the transport keeps
    pointing at the ended connection. *)
Lemma end_keeps_close_binding env w t a w' t' :
  api t = Some a → bound w a "close" on_close →
  end_ env (w, t) = JS.Normal (w', t') →
  bound w' a "close" on_close ∧ api t' = Some a.
Proof.
  intros Ha Hb. unfold end_. rewrite Ha.
  destruct (has_removeListener env); [|done].
  intros [= <- <-]. split; [|done].
  repeat (apply bound_update_keep;
          [intros h; first [apply shut_keeps
                           |by apply removeListener_keeps]|]).
  done.
Qed.

(** On a page whose connection objects have no [removeListener], [end]
    throws once a connection exists, and so does a second [open]. *)
Lemma end_throws_without_removeListener env w t a :
  has_removeListener env = false → api t = Some a →
  end_ env (w, t) = JS.Throw JS.TypeError
  ∧ ∀ u, open env (w, t) u = JS.Throw JS.TypeError.
Proof.
  intros He Ha. unfold open, end_. simpl. by rewrite Ha, He.
Qed.

Example open_twice_on_dom_page :
  Sample.open_twice Sample.dom_page Sample.auto_open "/a" "/b"
  = JS.Throw JS.TypeError.
Proof. reflexivity. Qed.

(** C5 (the code departs from the claim).  After
    [new ServerSentEvents("/a")] and [open("/b")], the transport holds
    one live connection with one set of four bindings, but the first
    connection still carries the [close] binding: [end] detaches
    [message], [error], [open] and [sse], never [close].  This holds
    for the native and for the legacy strategy. *)
Theorem open_twice_leaves_close_binding :
  (∃ w t h0 h1,
     Sample.open_twice Sample.native_page Sample.auto_open "/a" "/b"
     = JS.Normal (w, t)
     ∧ handles w = [h0; h1] ∧ api t = Some 1%nat ∧ live w = [1%nat]
     ∧ bindings h1 = [("message", on_data); ("error", on_error);
                      ("close", on_close); ("open", on_open)]
     ∧ closed h0 = true ∧ bindings h0 = [("close", on_close)])
  ∧ (∃ w t h0 h1,
       Sample.open_twice Sample.legacy_page Sample.auto_open "/a" "/b"
       = JS.Normal (w, t)
       ∧ handles w = [h0; h1] ∧ api t = Some 1%nat ∧ live w = [1%nat]
       ∧ bindings h1 = [("sse", on_data); ("error", on_error);
                        ("close", on_close); ("open", on_open)]
       ∧ closed h0 = true ∧ bindings h0 = [("close", on_close)]).
Proof. split; eexists _, _, _, _; by split_and!. Qed.

(** *** Where a connection points *)

Lemma initialize_target w t u w' t' :
  initialize (w, t) u = JS.Normal (w', t') →
  ∃ h, handles w' = handles w ++ [h]
       ∧ kind h = Native (url t) true
       ∧ api t' = Some (length (handles w)) ∧ url t' = u.
Proof.
  unfold initialize. simpl.
  destruct (listen t); [|done]. intros [= <- <-].
  unfold update_handle. simpl.
  rewrite (alter_app_r_alt _ (handles w)) by done.
  rewrite Nat.sub_diag. simpl. by eexists.
Qed.

Lemma legacy_source w t s w' t' :
  legacy (w, t) (Some s) = JS.Normal (w', t') →
  let u' := (if Str.contains "?"%char s then "&" else "?")
              +:+ "_SSE_LEGACY=" +:+ pretty (unique w) in
  ∃ h, handles w' = handles w ++ [h]
       ∧ kind h = Element (Some u') ("_SSE_LEGACY=" +:+ pretty (unique w))
       ∧ api t' = Some (length (handles w)) ∧ url t' = Some u'
       ∧ unique w' = unique w + 1.
Proof.
  unfold legacy. simpl.
  destruct (listen t); [|done]. intros [= <- <-].
  unfold update_handle. simpl.
  rewrite (alter_app_r_alt _ (handles w)) by done.
  rewrite Nat.sub_diag. simpl. by eexists.
Qed.

(** C6 (the code departs from the claim).  Under the native strategy
    the connection is built from the url the transport held before the
    call, not from the argument: [new ServerSentEvents("/a")] connects
    to [null], and on a transport made with [manual] for ["/old"],
    [open("/new")] connects to ["/old"].  Under the legacy strategy the
    element's source is only [?] or [&] and the marker: for
    ["http://example.com/stream"] it is ["?_SSE_LEGACY=1"]. *)
Theorem open_does_not_address_argument :
  (∃ w t h,
     new Sample.native_page initial_world (Some "/a") Sample.auto_open false
     = JS.Normal (w, t)
     ∧ handles w = [h] ∧ kind h = Native None true)
  ∧ (∃ w t h,
       Sample.open_twice Sample.native_page Sample.manual_open
         "/old" "/new" = JS.Normal (w, t)
       ∧ handles w = [h] ∧ kind h = Native (Some "/old") true)
  ∧ (∃ w t h,
       new Sample.legacy_page initial_world
         (Some "http://example.com/stream") Sample.auto_open false
       = JS.Normal (w, t)
       ∧ handles w = [h]
       ∧ kind h = Element (Some "?_SSE_LEGACY=1") "_SSE_LEGACY=1"
       ∧ markup w = ["<event-source src=" +:+ quoted "?_SSE_LEGACY=1"
                       +:+ " id=" +:+ quoted "_SSE_LEGACY=1" +:+ ">"])
  ∧ (∃ w t h,
       new Sample.legacy_page initial_world
         (Some "/stream?room=1") Sample.auto_open false
       = JS.Normal (w, t)
       ∧ handles w = [h]
       ∧ kind h = Element (Some "&_SSE_LEGACY=1") "_SSE_LEGACY=1").
Proof. split_and!; eexists _, _, _; by split_and!. Qed.

End transport.

(** * Further properties of the encoder *)

Section constructor.

Import Encoder.
Implicit Types (e : SSE) (s r : Sink) (req : Request) (o : Options).



(** X2.  On a response object without a [headers] property the
    constructors throw a [TypeError] unless the query has the
    [_SSE_LEGACY] parameter; with the parameter the header lookup is
    never reached and every encoder they construct has the legacy
    dialect.  With the parameter the second copy constructs one on
    every response and the first copy on every response for which no
    codec is negotiated; a negotiated codec without the [manual] option
    makes the first copy throw a [TypeError] all the same. *)
Theorem constructor_needs_response_headers
    parse zipline pipe vary_value req r o :
  headers r = None →
  (query (parse (req_url req)) !! "_SSE_LEGACY" = None →
     new parse zipline pipe vary_value req r o = JS.Throw JS.TypeError
     ∧ new2 parse req r o = JS.Throw JS.TypeError)
  ∧ (is_Some (query (parse (req_url req)) !! "_SSE_LEGACY") →
       (∀ e, new parse zipline pipe vary_value req r o = JS.Normal e →
             legacy_flag e = JS.Bool true)
       ∧ (∀ e2, new2 parse req r o = JS.Normal e2 →
                legacy_flag e2 = JS.Bool true)
       ∧ (codec r = None → ∃ e2, new2 parse req r o = JS.Normal e2)
       ∧ (codec r = None → codec_of (zipline req) = None →
          ∃ e, new parse zipline pipe vary_value req r o = JS.Normal e)
       ∧ (JS.truthy (opt_manual o) = false →
          is_Some (codec_of (zipline req)) →
          new parse zipline pipe vary_value req r o
          = JS.Throw JS.TypeError)).
Proof.
  intros Hr. split.
  - intros Hq. unfold new, new2. by rewrite Hr, legacy_throws.
  - intros Hq.
    assert (legacy (query (parse (req_url req))) (headers r)
            = JS.Normal (JS.Bool true)) as Hv.
    { unfold legacy. by rewrite decide_True. }
    destruct (new_after_legacy parse zipline pipe vary_value req r o _ Hv)
      as (Hn1 & Hn2 & Hn3).
    destruct (new2_after_legacy parse req r o _ Hv) as (Hm1 & Hm2).
    split_and!; try done.
    + intros e H%new_dialect. rewrite Hv in H. by injection H.
    + intros e H%new2_dialect. rewrite Hv in H. by injection H.
Qed.

Lemma constructor_needs_response_headers_witness :
  (new Sample.parse Sample.zipline Sample.pipe Sample.vary_value
     (Sample.request []) Sample2.bare_sink Sample.options
   = JS.Throw JS.TypeError
   ∧ new2 Sample.parse (Sample.request []) Sample2.bare_sink Sample.options
     = JS.Throw JS.TypeError)
  ∧ (∃ e, new Sample2.parse_marker Sample.zipline Sample.pipe
            Sample.vary_value (Sample.request []) Sample2.bare_sink
            Sample.options = JS.Normal e
          ∧ legacy_flag e = JS.Bool true)
  ∧ new Sample2.parse_marker Sample2.gzip Sample.pipe Sample.vary_value
      (Sample.request []) Sample2.bare_sink Sample.options
    = JS.Throw JS.TypeError.
Proof.
  split; [|split].
  - exact (proj1 (constructor_needs_response_headers Sample.parse
                    Sample.zipline Sample.pipe Sample.vary_value
                    (Sample.request []) Sample2.bare_sink Sample.options
                    eq_refl) eq_refl).
  - destruct (proj2 (constructor_needs_response_headers
                       Sample2.parse_marker Sample.zipline Sample.pipe
                       Sample.vary_value (Sample.request [])
                       Sample2.bare_sink Sample.options eq_refl)
                (ltac:(by eexists)))
      as (H1 & _ & _ & H4 & _).
    destruct (H4 eq_refl eq_refl) as [e He].
    exists e. split; [exact He|exact (H1 e He)].
  - destruct (proj2 (constructor_needs_response_headers
                       Sample2.parse_marker Sample2.gzip Sample.pipe
                       Sample.vary_value (Sample.request [])
                       Sample2.bare_sink Sample.options eq_refl)
                (ltac:(by eexists)))
      as (_ & _ & _ & _ & H5).
    apply H5; [reflexivity|by eexists].
Defined.

(** X3.  With the [manual] option the constructors leave the sink and
    the resume state alone, whatever the request carries: the first copy
    holds the response itself unless the negotiated encoding is
    [deflate], [raw] or [gzip], in which case it holds the zlib stream
    the response was piped into and keeps the encoding name; any other
    encoding is dropped to [null].
    The second copy always holds the response itself. *)
Theorem manual_constructor parse zipline pipe vary_value req r o e e2 :
  JS.truthy (opt_manual o) = true →
  new parse zipline pipe vary_value req r o = JS.Normal e →
  new2 parse req r o = JS.Normal e2 →
  lastEventId e = None ∧ id e = 0
  ∧ res e2 = Some r ∧ lastEventId e2 = Some (Number.of_N 0) ∧ id e2 = 0
  ∧ (zipline req = JS.Str "deflate" →
       res e = Some (zlib Deflate (pipe r Deflate)) ∧ encoding e = JS.Str "deflate")
  ∧ (zipline req = JS.Str "raw" →
       res e = Some (zlib DeflateRaw (pipe r DeflateRaw)) ∧ encoding e = JS.Str "raw")
  ∧ (zipline req = JS.Str "gzip" →
       res e = Some (zlib Gzip (pipe r Gzip)) ∧ encoding e = JS.Str "gzip")
  ∧ (zipline req ≠ JS.Str "deflate" → zipline req ≠ JS.Str "raw" →
     zipline req ≠ JS.Str "gzip" →
       res e = Some r ∧ encoding e = JS.Null).
Proof.
  intros Hm. unfold new, new2.
  destruct (legacy _ _) as [l|]; [|done]. simpl. rewrite Hm.
  intros [= <-] [= <-]. simpl. unfold compress.
  split_and!; try done.
  - by intros ->.
  - by intros ->.
  - by intros ->.
  - intros H1 H2 H3.
    assert (codec_of (zipline req) = None) as ->; [|done].
    unfold codec_of. destruct (zipline req) as [| |b|n|z]; try done.
    repeat case_decide; congruence.
Qed.

Lemma manual_constructor_witness :
  ∃ e, new Sample.parse Sample2.gzip Sample.pipe Sample.vary_value
         (Sample.request [("last-event-id", "7")]) Sample.sink
         Sample2.manual = JS.Normal e
       ∧ lastEventId e = None ∧ encoding e = JS.Str "gzip"
       ∧ res e = Some (zlib Gzip Sample.sink).
Proof.
  eexists. split; [reflexivity|].
  pose proof (manual_constructor Sample.parse Sample2.gzip Sample.pipe
                Sample.vary_value (Sample.request [("last-event-id", "7")])
                Sample.sink Sample2.manual _ _ eq_refl eq_refl eq_refl)
    as (H1 & _ & _ & _ & _ & _ & _ & H2 & _).
  split; [exact H1|].
  split; [exact (proj2 (H2 eq_refl))|exact (proj1 (H2 eq_refl))].
Defined.

(** X4.  Without the [manual] option the first copy's constructor never
    announces an encoding.  When [deflate], [raw] or [gzip] is
    negotiated it throws a [TypeError]: the encoder holds the zlib
    stream, and [accept] asks it for [setHeader].  For any other outcome
    of the negotiation the encoder it constructs holds the response
    itself with the encoding dropped to [null], [Content-Encoding] and
    [Vary] are as they were, and nothing has been written. *)
Theorem constructor_never_announces_encoding
    parse zipline pipe vary_value req r o :
  JS.truthy (opt_manual o) = false →
  match codec_of (zipline req) with
  | Some c =>
      new parse zipline pipe vary_value req r o = JS.Throw JS.TypeError
  | None =>
      ∀ e, new parse zipline pipe vary_value req r o = JS.Normal e →
        encoding e = JS.Null
        ∧ ∃ s, res e = Some s ∧ codec s = None
            ∧ sent s !! "Content-Encoding" = sent r !! "Content-Encoding"
            ∧ sent s !! "Vary" = sent r !! "Vary"
            ∧ chunks s = chunks r
  end.
Proof.
  intros Hm. unfold new, compress.
  destruct (codec_of (zipline req)) as [c|] eqn:Hc.
  - destruct (legacy _ _) as [l|err] eqn:Hl.
    + simpl. by rewrite Hm.
    + by rewrite (legacy_error _ _ _ Hl).
  - intros e. destruct (legacy _ _) as [l|]; [|done]. simpl. rewrite Hm.
    unfold accept. simpl. destruct (codec r) eqn:Hr; [done|].
    intros [= <-]. split.
    { unfold read_last_event_id. by case_match. }
    eexists. split.
    { by rewrite (proj1 (read_last_event_id_res _ _)). }
    simpl. split_and!; [done|by simplify_map_eq..|done].
Qed.

Lemma constructor_never_announces_encoding_witness :
  new Sample.parse Sample2.gzip Sample.pipe Sample.vary_value
    (Sample.request []) Sample.sink Sample.options = JS.Throw JS.TypeError
  ∧ ∃ e s, new Sample.parse Sample.zipline Sample.pipe Sample.vary_value
             (Sample.request []) Sample.sink Sample.options = JS.Normal e
           ∧ res e = Some s
           ∧ sent s !! "Content-Encoding" = None
           ∧ sent s !! "Content-Type" = Some "text/event-stream".
Proof.
  split.
  - exact (constructor_never_announces_encoding Sample.parse Sample2.gzip
             Sample.pipe Sample.vary_value (Sample.request []) Sample.sink
             Sample.options eq_refl).
  - eexists.
    destruct (constructor_never_announces_encoding Sample.parse
                Sample.zipline Sample.pipe Sample.vary_value
                (Sample.request []) Sample.sink Sample.options eq_refl
                _ eq_refl) as (_ & s & Hs & _ & H1 & _).
    exists s. split_and!; [reflexivity|exact Hs|exact H1|].
    injection Hs as <-. reflexivity.
Defined.

(** X5.  [accept] (either copy) throws a [TypeError] exactly when no sink
    is attached or the attached sink is a zlib stream, which has no
    [setHeader].  When it completes it has written nothing to the stream
    and has left the counter, the dialect, the numbering option and the
    store as they were. *)
Theorem accept_touches_headers_only vary_value e req :
  (accept vary_value e req = JS.Throw JS.TypeError
   ↔ res e = None ∨ ∃ s c, res e = Some s ∧ codec s = Some c)
  ∧ (accept2 e req = JS.Throw JS.TypeError
     ↔ res e = None ∨ ∃ s c, res e = Some s ∧ codec s = Some c)
  ∧ ∀ e', accept vary_value e req = JS.Normal e'
          ∨ accept2 e req = JS.Normal e' →
      written e' = written e ∧ id e' = id e
      ∧ legacy_flag e' = legacy_flag e ∧ numbering e' = numbering e
      ∧ storage e' = storage e.
Proof.
  unfold accept, accept2, written.
  destruct (res e) as [s|] eqn:Hs.
  - destruct (codec s) as [c|] eqn:Hc.
    + split_and!; [split; [eauto|done]..|]. by intros e' [?|?].
    + split_and!.
      * split; [done|]. intros [?|(? & ? & ? & ?)]; by simplify_eq.
      * split; [done|]. intros [?|(? & ? & ? & ?)]; by simplify_eq.
      * intros e' [[= <-]|[= <-]]; unfold read_last_event_id, vary;
          repeat case_match; by simplify_eq/=.
  - split_and!; [split; [eauto|done]..|]. by intros e' [?|?].
Qed.

Lemma accept_touches_headers_only_witness :
  accept Sample.vary_value
    (with_res (Some (zlib Gzip Sample.sink))
       (Sample.encoder true JS.Undefined)) (Sample.request [])
  = JS.Throw JS.TypeError
  ∧ accept Sample.vary_value
      (with_res None (Sample.encoder true JS.Undefined)) (Sample.request [])
    = JS.Throw JS.TypeError
  ∧ ∃ e', accept Sample.vary_value (Sample.encoder true JS.Undefined)
            (Sample.request []) = JS.Normal e'
          ∧ written e' = [] ∧ id e' = 0.
Proof.
  split; [|split].
  - apply (proj1 (accept_touches_headers_only Sample.vary_value
                    (with_res (Some (zlib Gzip Sample.sink))
                       (Sample.encoder true JS.Undefined))
                    (Sample.request []))).
    right. by exists (zlib Gzip Sample.sink), Gzip.
  - apply (proj1 (accept_touches_headers_only Sample.vary_value
                    (with_res None (Sample.encoder true JS.Undefined))
                    (Sample.request []))).
    by left.
  - eexists. split; [reflexivity|].
    destruct (proj2 (proj2 (accept_touches_headers_only Sample.vary_value
                (Sample.encoder true JS.Undefined) (Sample.request [])))
                _ (or_introl eq_refl)) as (Hw & Hi & _).
    exact (conj Hw Hi).
Defined.

End constructor.

Section runs.

Import Encoder.
Implicit Types (e : SSE) (s : Sink) (c : Call) (cs : list Call) (msg : Msg).

Lemma run_nil e : run e [] = ([], e).
Proof. done. Qed.

Lemma run_fst_cons e c cs :
  fst (run e (c :: cs)) = fst (call e c) :: fst (run (snd (call e c)) cs).
Proof.
  simpl. destruct (call e c) as [ok e']. simpl. by destruct (run e' cs).
Qed.

Lemma call_storage e c :
  storage (snd (call e c)) = storage (Step.after e c).
Proof.
  rewrite call_split. unfold _write.
  destruct (res (Step.after e c)); [|done]. by destruct (sink_write _ _).
Qed.

Lemma call_flags e c :
  legacy_flag (snd (call e c)) = legacy_flag e
  ∧ numbering (snd (call e c)) = numbering e.
Proof.
  destruct (after_flags e c) as [<- <-].
  rewrite call_split. unfold _write.
  destruct (res (Step.after e c)); [|done]. by destruct (sink_write _ _).
Qed.

(** X6.  With numbering on and the standard dialect, an attached store
    receives one [set] per [write], keyed by the sequence number the
    write takes and holding the data frames without the [id] frame and
    without the closing blank line; [retry] stores nothing.  This does
    not depend on a sink being attached: a write that fails for want of
    a sink is stored all the same.  An encoder without a store never
    gets one. *)
Theorem store_receives_numbered_writes e cs :
  numbering e = true → JS.truthy (legacy_flag e) = false →
  storage (snd (run e cs))
  = (λ st, st ++ Log.stored (id e) cs) <$> storage e.
Proof.
  revert e. induction cs as [|c cs IH]; intros e Hn Hl.
  - simpl. destruct (storage e); simpl; by rewrite ?app_nil_r.
  - rewrite run_cons.
    destruct (call_flags e c) as [Hl' Hn'].
    rewrite IH by congruence.
    rewrite call_storage, call_id, after_id, Hn, Hl.
    destruct c as [msg|i]; simpl.
    + rewrite Hl, Hn, data_frames_standard by done.
      unfold storage_set. destruct (storage e) eqn:Hst; simpl.
      * by rewrite <- app_assoc.
      * by rewrite Hst.
    + done.
Qed.

Lemma store_receives_numbered_writes_witness :
  storage (snd (run (with_res None Sample2.stored_encoder)
                  Sample.ab_then_c))
  = Some [(0, "data:a" +:+ LF +:+ "data:b" +:+ LF);
          (1, "data:c" +:+ LF)].
Proof.
  exact (store_receives_numbered_writes
           (with_res None Sample2.stored_encoder) Sample.ab_then_c
           eq_refl eq_refl).
Defined.

(** X7.  An encoder in the legacy dialect, or with numbering off, never
    moves its counter and never calls the store, over any run of [write]
    and [retry] calls. *)
Theorem unnumbered_run_keeps_counter e cs :
  numbering e = false ∨ JS.truthy (legacy_flag e) = true →
  id (snd (run e cs)) = id e ∧ storage (snd (run e cs)) = storage e.
Proof.
  revert e. induction cs as [|c cs IH]; intros e H; [done|].
  rewrite run_cons.
  destruct (call_flags e c) as [Hl' Hn'].
  destruct (IH (snd (call e c))) as [-> ->]; [by rewrite Hl', Hn'|].
  rewrite call_id, call_storage.
  destruct c as [msg|i]; [|done]. simpl.
  destruct H as [->| ->]; [|done]. by destruct (JS.truthy (legacy_flag e)).
Qed.

Lemma unnumbered_run_keeps_counter_witness :
  id (snd (run (Sample.encoder true (JS.Bool true)) Sample.ab_then_c)) = 0.
Proof.
  exact (proj1 (unnumbered_run_keeps_counter
                  (Sample.encoder true (JS.Bool true)) Sample.ab_then_c
                  (or_intror eq_refl))).
Defined.

Lemma run_written_map e s cs (chunk : Call → string) :
  (∀ e' c, legacy_flag e' = legacy_flag e → numbering e' = numbering e →
           Step.packet e' c +:+ LF = chunk c) →
  res e = Some s →
  written (snd (run e cs)) = chunks s ++ (chunk <$> cs).
Proof.
  intros Hchunk. revert e s Hchunk.
  induction cs as [|c cs IH]; intros e s Hchunk Hs.
  - simpl. unfold written. by rewrite Hs, app_nil_r.
  - rewrite run_cons, (call_Some e s) by done. simpl snd.
    destruct (after_flags e c) as [Hl Hn].
    rewrite (IH _ (Step.fed (Step.packet e c +:+ LF) s)); [|
      intros e' c' Hl' Hn'; apply Hchunk; simpl in *; congruence|done].
    simpl. rewrite <- app_assoc. simpl. by rewrite Hchunk.
Qed.

(** X8.  In the legacy dialect a run of calls puts on the wire, call by
    call, the fixed chunk [Event: sse] and a blank line for a [write]
    and [retry: ], the interval and a blank line for a [retry]. *)
Theorem legacy_run_stream e s cs :
  JS.truthy (legacy_flag e) = true → res e = Some s →
  written (snd (run e cs)) = chunks s ++ (Log.legacy_chunk <$> cs).
Proof.
  intros Hl Hs. apply run_written_map; [|done].
  intros e' c Hl' _. rewrite <- Hl' in Hl.
  destruct c as [msg|i]; simpl.
  - rewrite Hl. by rewrite format_legacy by done.
  - rewrite format_legacy by done. by rewrite !str_app_assoc.
Qed.

Lemma legacy_run_stream_witness :
  written (snd (run (Sample.encoder true (JS.Bool true))
                  [Write (One (JS.Str "a")); Retry (JS.Num 1000)]))
  = ["Event: sse" +:+ LF +:+ LF; "retry: 1000" +:+ LF +:+ LF].
Proof.
  exact (legacy_run_stream (Sample.encoder true (JS.Bool true)) Sample.sink
           [Write (One (JS.Str "a")); Retry (JS.Num 1000)]
           eq_refl eq_refl).
Defined.

(** X9.  In the standard dialect with numbering off a [write] puts on
    the wire one [data] frame per value, in order, and a blank line,
    with no [id] frame; a [retry] puts its frame and a blank line. *)
Theorem plain_run_stream e s cs :
  numbering e = false → JS.truthy (legacy_flag e) = false →
  res e = Some s →
  written (snd (run e cs)) = chunks s ++ (Log.plain_chunk <$> cs).
Proof.
  intros Hn Hl Hs. apply run_written_map; [|done].
  intros e' c Hl' Hn'. rewrite <- Hl' in Hl. rewrite <- Hn' in Hn.
  destruct c as [msg|i]; simpl.
  - by rewrite Hl, Hn, data_frames_standard.
  - by rewrite format_standard.
Qed.

Lemma plain_run_stream_witness :
  written (snd (run (Sample.encoder false JS.Undefined) Sample.ab_then_c))
  = ["data:a" +:+ LF +:+ "data:b" +:+ LF +:+ LF; "data:c" +:+ LF +:+ LF].
Proof.
  exact (plain_run_stream (Sample.encoder false JS.Undefined) Sample.sink
           Sample.ab_then_c eq_refl eq_refl eq_refl).
Defined.

(** X10.  Every call of a run reaches the sink, also after the sink has
    answered [false]: the sink receives exactly one new chunk per call,
    and the value each call returns is the sink's answer to its chunk. *)
Theorem run_reaches_sink e s cs :
  res e = Some s →
  ∃ new, written (snd (run e cs)) = chunks s ++ new
         ∧ length new = length cs
         ∧ fst (run e cs) = Log.answers s new.
Proof.
  revert e s. induction cs as [|c cs IH]; intros e s Hs.
  - exists []. simpl. unfold written. by rewrite Hs, app_nil_r.
  - rewrite run_cons, run_fst_cons, (call_Some e s) by done. simpl.
    destruct (IH (with_res (Some (Step.fed (Step.packet e c +:+ LF) s))
                    (Step.after e c))
                 (Step.fed (Step.packet e c +:+ LF) s) eq_refl)
      as (new & Hw & Hlen & Hans).
    exists ((Step.packet e c +:+ LF) :: new).
    rewrite Hw, Hans. simpl. rewrite <- app_assoc. simpl.
    split_and!; [done|by rewrite Hlen|done].
Qed.

Lemma run_reaches_sink_witness :
  ∃ new,
    written (snd (run (with_res (Some Sample2.full_sink)
                         (Sample.encoder true JS.Undefined))
                    Sample.ab_then_c))
    = [] ++ new
    ∧ length new = 2%nat
    ∧ fst (run (with_res (Some Sample2.full_sink)
                  (Sample.encoder true JS.Undefined)) Sample.ab_then_c)
      = Log.answers Sample2.full_sink new.
Proof.
  exact (run_reaches_sink
           (with_res (Some Sample2.full_sink)
              (Sample.encoder true JS.Undefined))
           Sample2.full_sink Sample.ab_then_c eq_refl).
Defined.

(** X11.  No run of [write] and [retry] calls changes the dialect, the
    numbering option, the negotiated encoding, the parsed url or the
    resume state of the encoder, nor the status and the headers held by
    its sink. *)
Theorem run_keeps_configuration e cs :
  legacy_flag (snd (run e cs)) = legacy_flag e
  ∧ numbering (snd (run e cs)) = numbering e
  ∧ encoding (snd (run e cs)) = encoding e
  ∧ url (snd (run e cs)) = url e
  ∧ lastEventId (snd (run e cs)) = lastEventId e
  ∧ (statusCode <$> res (snd (run e cs))) = (statusCode <$> res e)
  ∧ (sent <$> res (snd (run e cs))) = (sent <$> res e)
  ∧ (headers <$> res (snd (run e cs))) = (headers <$> res e).
Proof.
  revert e. induction cs as [|c cs IH]; intros e; [done|].
  rewrite run_cons.
  destruct (IH (snd (call e c))) as (-> & -> & -> & -> & -> & -> & -> & ->).
  rewrite call_split. unfold _write.
  assert (legacy_flag (Step.after e c) = legacy_flag e
          ∧ numbering (Step.after e c) = numbering e
          ∧ encoding (Step.after e c) = encoding e
          ∧ url (Step.after e c) = url e
          ∧ lastEventId (Step.after e c) = lastEventId e
          ∧ res (Step.after e c) = res e) as (H1 & H2 & H3 & H4 & H5 & H6).
  { destruct c as [msg|i]; [|done]. simpl.
    destruct (JS.truthy (legacy_flag e)); [done|].
    destruct (numbering e) eqn:Hn; [|done].
    unfold storage_set. by destruct (storage e). }
  rewrite H6. destruct (res e) as [s|]; simpl; by rewrite ?H6.
Qed.

End runs.

Section framing.

Import Encoder.
Implicit Types (e : SSE) (s : Sink) (msg : Msg) (vs : list JS.value).

Lemma lines_LF : Str.lines LF = [""; ""].
Proof. reflexivity. Qed.

Lemma count_data_frames vs :
  Str.count LF_char (Wire.data_frames vs)
  = (length vs + Log.newlines vs)%nat.
Proof.
  unfold Log.newlines. induction vs as [|v vs IH]; [done|].
  simpl Wire.data_frames. unfold Wire.frame.
  rewrite !count_app, IH. rewrite fmap_cons. simpl. lia.
Qed.

Lemma write_chunk e s msg :
  res e = Some s →
  written (snd (write e msg))
  = chunks s ++ [Step.packet e (Write msg) +:+ LF].
Proof.
  intros Hs. change (write e msg) with (call e (Write msg)).
  by rewrite (call_Some e s).
Qed.

(** X12.  In the standard dialect with numbering on, and for values
    without line feeds, the chunk of a [write] splits into lines as
    follows: the [id] line with the current counter, one [data:] line per
    value in the order given, and one empty line that ends the group
    (the last piece is the empty rest after the final line feed). *)
Theorem numbered_chunk_lines e s msg :
  numbering e = true → JS.truthy (legacy_flag e) = false →
  res e = Some s → Step.newline_free (Write msg) = true →
  ∃ chunk,
    written (snd (write e msg)) = chunks s ++ [chunk]
    ∧ Str.lines chunk
      = ("id:" +:+ pretty (id e))
        :: ((λ v, "data:" +:+ JS.to_string v) <$> as_array msg)
        ++ [""; ""].
Proof.
  intros Hn Hl Hs Hfree. eexists. split; [by apply write_chunk|].
  rewrite (packet_numbered e (Write msg)) by done.
  unfold Wire.numbered_group.
  rewrite frame_app, lines_app_LF by (by rewrite !count_app, pretty_N_no_LF).
  by rewrite lines_data_frames, lines_LF.
Qed.

Lemma numbered_chunk_lines_witness :
  ∃ chunk,
    written (snd (write (Sample.encoder true JS.Undefined)
                    (Many [JS.Str "a"; JS.Str "b"])))
    = [] ++ [chunk]
    ∧ Str.lines chunk = ["id:0"; "data:a"; "data:b"; ""; ""].
Proof.
  exact (numbered_chunk_lines (Sample.encoder true JS.Undefined) Sample.sink
           (Many [JS.Str "a"; JS.Str "b"]) eq_refl eq_refl eq_refl eq_refl).
Defined.

(** X13.  [write] escapes nothing.  In the standard dialect the chunk it
    hands to the sink holds one line feed per frame, one for the closing
    blank line, and on top of these every line feed that occurs inside
    a value: a value with an embedded line feed adds lines to the group. *)
Theorem write_escapes_nothing e s msg :
  JS.truthy (legacy_flag e) = false → res e = Some s →
  ∃ chunk,
    written (snd (write e msg)) = chunks s ++ [chunk]
    ∧ Str.count LF_char chunk
      = ((if numbering e then 1 else 0) + length (as_array msg)
         + Log.newlines (as_array msg) + 1)%nat.
Proof.
  intros Hl Hs. eexists. split; [by apply write_chunk|].
  destruct (numbering e) eqn:Hn.
  - rewrite (packet_numbered e (Write msg)) by done.
    unfold Wire.numbered_group, Wire.frame.
    rewrite !count_app, count_data_frames, pretty_N_no_LF. simpl. lia.
  - rewrite packet_plain by done. unfold Wire.plain_group.
    rewrite !count_app, count_data_frames. simpl. lia.
Qed.

Lemma write_escapes_nothing_witness :
  ∃ chunk,
    written (snd (write (Sample.encoder false JS.Undefined)
                    (One (JS.Str ("a" +:+ LF +:+ "id:7")))))
    = [] ++ [chunk]
    ∧ Str.count LF_char chunk = 3%nat.
Proof.
  exact (write_escapes_nothing (Sample.encoder false JS.Undefined)
           Sample.sink (One (JS.Str ("a" +:+ LF +:+ "id:7")))
           eq_refl eq_refl).
Defined.

End framing.

(** ** Sequence numbers survive the trip through the resume header *)

Section round_trip.

Import Encoder.

Lemma rev_app_rev s t : String.rev_app s t = String.rev s +:+ t.
Proof.
  revert t. induction s as [|a s IH]; intros t; [done|].
  unfold String.rev. simpl. rewrite (IH (String a t)), (IH (String a "")).
  by rewrite str_app_assoc.
Qed.

Lemma rev_cons a s : String.rev (String a s) = String.rev s +:+ String a "".
Proof. unfold String.rev at 1. simpl. apply rev_app_rev. Qed.

Lemma rev_app_distr s t :
  String.rev (s +:+ t) = String.rev t +:+ String.rev s.
Proof.
  induction s as [|a s IH].
  - by rewrite str_app_nil_l, str_app_nil_r.
  - by rewrite str_app_cons, !rev_cons, IH, str_app_assoc.
Qed.

Lemma rev_involutive s : String.rev (String.rev s) = s.
Proof.
  induction s as [|a s IH]; [done|].
  by rewrite rev_cons, rev_app_distr, IH.
Qed.

Lemma count_rev c s : Str.count c (String.rev s) = Str.count c s.
Proof.
  induction s as [|a s IH]; [done|].
  rewrite rev_cons, count_app, IH. simpl. lia.
Qed.

Lemma trim_left_id s :
  (∀ c, Str.count c s ≠ 0%nat → Number.is_space c = false) →
  Number.trim_left s = s.
Proof.
  destruct s as [|a s]; [done|]. intros H. simpl.
  rewrite (H a); [done|]. simpl. rewrite decide_True by done. lia.
Qed.

(** A text without white space is its own trimming. *)
Lemma trim_id s :
  (∀ c, Str.count c s ≠ 0%nat → Number.is_space c = false) →
  Number.trim s = s.
Proof.
  intros H. unfold Number.trim.
  rewrite (trim_left_id s), trim_left_id, rev_involutive; [done| |done].
  intros c. rewrite count_rev. apply H.
Qed.

Lemma digit_char d : d < 10 → Number.digit 10 (pretty_N_char d) = Some d.
Proof.
  intros Hd.
  assert (d = 0 ∨ d = 1 ∨ d = 2 ∨ d = 3 ∨ d = 4 ∨ d = 5 ∨ d = 6
          ∨ d = 7 ∨ d = 8 ∨ d = 9) as H by lia.
  by repeat destruct H as [->|H]; [..|subst].
Qed.

Lemma digits_pretty_go x :
  ∀ acc len s, 0 < x →
    ∃ k, (0 < k)%nat
         ∧ Number.digits 10 acc len (pretty_N_go x s)
           = Number.digits 10 (acc * 10 ^ N.of_nat k + x) (len + k) s.
Proof.
  induction (N.lt_wf_0 x) as [x _ IH]; intros acc len s Hx.
  rewrite pretty_N_go_step by done.
  assert (x `mod` 10 < 10) as Hmod by (apply N.mod_lt; lia).
  pose proof (N.div_mod x 10 ltac:(lia)) as Hdm.
  destruct (decide (x `div` 10 = 0)) as [Hz|Hnz].
  - rewrite Hz, pretty_N_go_0. exists 1%nat. split; [lia|].
    simpl Number.digits. rewrite digit_char by done.
    f_equal; [|lia]. change (10 ^ N.of_nat 1) with 10. lia.
  - destruct (IH (x `div` 10) ltac:(apply N.div_lt; lia) acc len
                (String (pretty_N_char (x `mod` 10)) s) ltac:(lia))
      as (k & Hk & ->).
    exists (S k). split; [lia|].
    simpl Number.digits. rewrite digit_char by done.
    f_equal; [|lia].
    rewrite Nat2N.inj_succ, N.pow_succ_r'. lia.
Qed.

(** Reading back a decimal numeral gives the number, and consumes the
    whole text. *)
Lemma digits_pretty (n : N) :
  ∃ k, Number.digits 10 0 0 (pretty n) = (n, S k, "").
Proof.
  unfold pretty, pretty_N. case_decide as Hn.
  - subst. by exists 0%nat.
  - destruct (digits_pretty_go n 0 0%nat "" ltac:(lia)) as (k & Hk & ->).
    destruct k as [|k]; [lia|]. exists k.
    by rewrite N.mul_0_l, N.add_0_l.
Qed.

Lemma pretty_no_space (n : N) c :
  Str.count c (pretty n) ≠ 0%nat → Number.is_space c = false.
Proof.
  intros Hc. destruct (Number.is_space c) eqn:Hsp; [|done].
  exfalso. apply Hc. unfold pretty, pretty_N. case_decide.
  - simpl. case_decide; [|done]. by subst.
  - rewrite pretty_N_go_count; [done|].
    intros d Hd. subst. unfold pretty_N_char in Hsp.
    by repeat case_match.
Qed.

(** *** Integers up to [2^53] are doubles *)

Lemma odd_part_ctz p :
  Npos (Number.odd_part p) * 2 ^ N.of_nat (Number.ctz p) = Npos p.
Proof.
  induction p as [p IH|p IH|]; [apply N.mul_1_r| |done].
  cbn [Number.odd_part Number.ctz].
  rewrite Nat2N.inj_succ, N.pow_succ_r', N.mul_assoc,
    (N.mul_comm _ 2), <- N.mul_assoc, IH. lia.
Qed.

Lemma canonical_double neg p k :
  Number.canonical neg (Npos p~0) (k - 1) = Number.canonical neg (Npos p) k.
Proof.
  unfold Number.canonical. cbn [Number.odd_part Number.ctz].
  by replace (k - 1 + Z.of_nat (S (Number.ctz p)))%Z
    with (k + Z.of_nat (Number.ctz p))%Z by lia.
Qed.

Lemma canonical_shift neg (j : nat) : ∀ p k,
  Number.canonical neg (Npos p * 2 ^ N.of_nat j) (k - Z.of_nat j)
  = Number.canonical neg (Npos p) k.
Proof.
  induction j as [|j IH]; intros p k.
  - rewrite N.mul_1_r. by replace (k - Z.of_nat 0)%Z with k by lia.
  - replace (Npos p * 2 ^ N.of_nat (S j)) with (Npos p~0 * 2 ^ N.of_nat j).
    + replace (k - Z.of_nat (S j))%Z with (k - 1 - Z.of_nat j)%Z by lia.
      rewrite IH. apply canonical_double.
    + rewrite Nat2N.inj_succ, N.pow_succ_r'. lia.
Qed.

Lemma canonical_integer neg v :
  v ≤ 2 ^ 53 → Number.canonical neg v 0 = Number.Fin neg v 0.
Proof.
  intros Hv. destruct v as [|p]; [done|]. unfold Number.canonical.
  rewrite Z.add_0_l.
  replace (Z.to_N (Z.of_nat (Number.ctz p))) with (N.of_nat (Number.ctz p))
    by lia.
  rewrite odd_part_ctz.
  rewrite (proj2 (Z.leb_le _ _)) by lia.
  by rewrite (proj2 (N.leb_le _ _)).
Qed.

Lemma round_ratio_integer neg v :
  v ≤ 2 ^ 53 → Number.round_ratio neg v 1 = Number.Fin neg v 0.
Proof.
  intros Hv.
  destruct (decide (v = 0)) as [->|Hv0]; [done|].
  destruct (decide (v = 2 ^ 53)) as [->|Hv53]; [by vm_compute|].
  assert (0 < v) as Hpos by lia.
  destruct (N.log2_spec v Hpos) as [Hlo Hhi].
  assert (N.log2 v < 53) as Hlog.
  { apply N.log2_lt_pow2; [done|lia]. }
  unfold Number.round_ratio.
  rewrite (proj2 (N.eqb_neq _ _) Hv0).
  assert (Number.floor_log2 v 1 = Z.of_N (N.log2 v)) as ->.
  { unfold Number.floor_log2. change (N.log2 1) with 0.
    rewrite Z.sub_0_r.
    replace (Z.to_N (- Z.of_N (N.log2 v))) with 0 by lia.
    rewrite N2Z.id, N.mul_1_r, N.mul_1_l.
    by rewrite (proj2 (N.ltb_ge _ _)). }
  rewrite Z.max_l by lia.
  replace (Z.to_N (Z.of_N (N.log2 v) - 52)) with 0 by lia.
  unfold Number.nearest_even.
  rewrite N.mul_1_r, N.div_1_r, N.mod_1_r.
  rewrite (proj2 (Z.ltb_ge _ _)) by lia.
  rewrite (proj2 (Z.eqb_neq _ _)) by lia. cbn [orb andb].
  destruct v as [|p]; [done|].
  set (j := (52 - N.to_nat (N.log2 (Npos p)))%nat).
  replace (Z.to_N (- (Z.of_N (N.log2 (Npos p)) - 52))) with (N.of_nat j) by lia.
  replace (Z.of_N (N.log2 (Npos p)) - 52)%Z with (0 - Z.of_nat j)%Z by lia.
  change ((1 <? 2 * 0) || (2 * 0 =? 1) && N.odd (Npos p * 2 ^ N.of_nat j))
    with false.
  cbv iota. rewrite canonical_shift. by apply canonical_integer.
Qed.

(** A text made of decimal digits only converts to the double nearest
    to the number the digits spell. *)
Lemma of_string_digits s v k :
  Number.trim s = s → Number.digits 10 0 0 s = (v, S k, "") →
  Number.of_string s = Number.round_ratio false v 1.
Proof.
  intros Htrim Hs. unfold Number.of_string. rewrite Htrim.
  assert (∀ c, is_Some (Number.digit 10 c) →
            c ≠ "-"%char ∧ c ≠ "+"%char ∧ c ≠ "I"%char ∧ c ≠ "x"%char
            ∧ c ≠ "X"%char ∧ c ≠ "o"%char ∧ c ≠ "O"%char
            ∧ c ≠ "b"%char ∧ c ≠ "B"%char) as Hdigit.
  { intros c [d Hd]. split_and!; intros ->; by vm_compute in Hd. }
  assert (∀ c0 r, s = String c0 r →
            Number.sign s = (false, s) ∧ s ≠ "Infinity") as Hsign.
  { intros c0 r ->. simpl in Hs.
    destruct (Number.digit 10 c0) as [d|] eqn:Hd; [|done].
    destruct (Hdigit c0) as (? & ? & ? & _); [by eexists|].
    unfold Number.sign. rewrite !decide_False by done.
    split; [done|]. by intros [= ->]. }
  assert (Number.unsigned_decimal false s = Number.round_ratio false v 1)
    as Hdec.
  { unfold Number.unsigned_decimal.
    destruct s as [|c0 r]; [done|].
    destruct (Hsign c0 r eq_refl) as [_ Hinf].
    rewrite decide_False by done. rewrite Hs. simpl.
    unfold Number.round_decimal. simpl. by rewrite N.mul_1_r. }
  destruct s as [|c0 [|c1 r]]; [done| |].
  - destruct (Hsign c0 "" eq_refl) as [-> _]. exact Hdec.
  - destruct (Hsign c0 (String c1 r) eq_refl) as [-> _].
    simpl in Hs.
    destruct (Number.digit 10 c0) as [d0|] eqn:Hd0; [|done].
    destruct (Number.digit 10 c1) as [d1|] eqn:Hd1; [|done].
    destruct (Hdigit c1) as (_ & _ & _ & ? & ? & ? & ? & ? & ?);
      [by eexists|].
    rewrite !decide_False by tauto. exact Hdec.
Qed.

Lemma of_string_pretty (n : N) :
  n ≤ 2 ^ 53 → Number.of_string (pretty n) = Number.of_N n.
Proof.
  intros Hn. destruct (digits_pretty n) as [k Hk].
  rewrite (of_string_digits _ n k); [by apply round_ratio_integer| |done].
  apply trim_id, pretty_no_space.
Qed.

(** X14.  For a counter value [n] up to [2^53], the decimal text that
    [write] prints in an [id] frame is read back as [n] when it comes in
    as the [Last-Event-ID] header of a later request on a response:
    [accept] (either copy) then stores exactly [n] as the resume state.
    The conversion rounds to a double, and every integer in that range
    is one. *)
Theorem resume_header_round_trip vary_value e s req (n : N) :
  res e = Some s → codec s = None → n ≤ 2 ^ 53 →
  req_headers req !! "last-event-id" = Some (JS.to_string (JS.Num n)) →
  ∃ e1 e2,
    accept vary_value e req = JS.Normal e1
    ∧ lastEventId e1 = Some (Number.of_N n)
    ∧ accept2 e req = JS.Normal e2
    ∧ lastEventId e2 = Some (Number.of_N n).
Proof.
  intros Hs Hc Hn Hh. unfold accept, accept2. rewrite Hs, Hc.
  eexists _, _. split_and!; [done| |done|];
    rewrite read_last_event_id_spec, Hh; simpl;
    (rewrite decide_False;
       [by rewrite of_string_pretty
       |intros Hempty; destruct (digits_pretty n) as [k Hk];
        by rewrite Hempty in Hk]).
Qed.

Lemma resume_header_round_trip_witness :
  ∃ e1 e2,
    accept Sample.vary_value (Sample.encoder true JS.Undefined)
      (Sample.request [("last-event-id", "9007199254740991")])
    = JS.Normal e1
    ∧ lastEventId e1 = Some (Number.Fin false 9007199254740991 0)
    ∧ accept2 (Sample.encoder true JS.Undefined)
        (Sample.request [("last-event-id", "9007199254740991")])
      = JS.Normal e2
    ∧ lastEventId e2 = Some (Number.Fin false 9007199254740991 0).
Proof.
  exact (resume_header_round_trip Sample.vary_value
           (Sample.encoder true JS.Undefined) Sample.sink
           (Sample.request [("last-event-id", "9007199254740991")])
           9007199254740991 eq_refl eq_refl ltac:(by vm_compute) eq_refl).
Defined.

End round_trip.

(** * Further properties of the transport *)

Section connections.

Import Transport.
Implicit Types (w : World) (t : ServerSentEvents) (h : Handle) (a : nat)
  (st : State) (u : option string).

Lemma alter_alter {A} (f g : A → A) (l : list A) i :
  alter f i (alter g i l) = alter (f ∘ g) i l.
Proof.
  apply list_eq. intros j. destruct (decide (i = j)) as [->|Hne].
  - rewrite !list_lookup_alter_eq. by destruct (l !! j).
  - by rewrite !list_lookup_alter_ne.
Qed.

Lemma update_update a f g w :
  update_handle a f (update_handle a g w) = update_handle a (f ∘ g) w.
Proof. unfold update_handle. simpl. by rewrite alter_alter. Qed.

Lemma end_eq env w t a :
  has_removeListener env = true → api t = Some a →
  end_ env (w, t) = JS.Normal (update_handle a Conn.ended w, t).
Proof.
  intros He Ha. unfold end_. rewrite Ha, He. by rewrite !update_update.
Qed.

Lemma end_no_connection env w t :
  api t = None → end_ env (w, t) = JS.Normal (w, t).
Proof. intros Ha. unfold end_. by rewrite Ha. Qed.

Lemma ended_bindings h :
  bindings (Conn.ended h)
  = filter (λ b, b ∉ Conn.detached) (bindings h).
Proof.
  unfold Conn.ended, removeListener, shut. simpl.
  rewrite !list_filter_filter. apply list_filter_iff.
  intros b. unfold Conn.detached. rewrite !not_elem_of_cons.
  rewrite elem_of_nil. tauto.
Qed.

(** X15.  On connection objects that have [removeListener], [end] on a
    transport that holds a connection closes that connection and removes
    from it exactly the bindings of [message], [error], [open] and [sse]
    to the shared listeners; every other binding stays, other
    connections are not touched, and the transport keeps its fields: it
    still points at the ended connection and keeps its url.  The markup
    mounted by the legacy strategy stays in the document. *)
Theorem end_effect env w t a h :
  has_removeListener env = true → api t = Some a →
  handles w !! a = Some h →
  ∃ w' h',
    end_ env (w, t) = JS.Normal (w', t)
    ∧ handles w' = <[a := h']> (handles w)
    ∧ closed h' = true
    ∧ bindings h' = filter (λ b, b ∉ Conn.detached) (bindings h)
    ∧ markup w' = markup w ∧ unique w' = unique w.
Proof.
  intros He Ha Hh. eexists _, (Conn.ended h).
  split; [by apply end_eq|]. simpl.
  split_and!; [|done|apply ended_bindings|done..].
  apply list_eq. intros j. destruct (decide (a = j)) as [->|Hne].
  - rewrite list_lookup_alter_eq, Hh. simpl.
    rewrite list_lookup_insert_eq; [done|]. by eapply lookup_lt_Some.
  - by rewrite list_lookup_alter_ne, list_lookup_insert_ne.
Qed.

Lemma end_effect_witness :
  ∃ w' h',
    end_ Sample.native_page (Opened.world, Opened.transport)
    = JS.Normal (w', Opened.transport)
    ∧ handles w' = [h']
    ∧ closed h' = true
    ∧ bindings h' = [("close", on_close)]
    ∧ markup w' = [] ∧ unique w' = 1.
Proof.
  exact (end_effect Sample.native_page Opened.world Opened.transport 0%nat
           Opened.connection eq_refl eq_refl eq_refl).
Defined.

Lemma ended_idempotent h : Conn.ended (Conn.ended h) = Conn.ended h.
Proof.
  assert (∀ h1 h2, kind h1 = kind h2 → closed h1 = closed h2 →
            bindings h1 = bindings h2 → h1 = h2) as Hext.
  { intros [] []. simpl. by intros -> -> ->. }
  apply Hext.
  - simpl. by destruct (kind h).
  - done.
  - rewrite !ended_bindings, list_filter_filter.
    apply list_filter_iff. tauto.
Qed.

(** X16.  [end] is idempotent: when it completes, calling it again
    completes as well and changes nothing.  On a transport that holds no
    connection it is a no-op from the start. *)
Theorem end_idempotent env st st' :
  (end_ env st = JS.Normal st' → end_ env st' = JS.Normal st')
  ∧ (api (snd st) = None → end_ env st = JS.Normal st).
Proof.
  destruct st as [w t]. split; [|apply end_no_connection].
  destruct (api t) as [a|] eqn:Ha.
  - destruct (has_removeListener env) eqn:He.
    + rewrite (end_eq env w t a) by done. intros [= <-].
      rewrite (end_eq env _ t a), update_update by done.
      do 2 f_equal. unfold update_handle. simpl. f_equal.
      apply list_alter_ext; [|done]. intros h _. apply ended_idempotent.
    + unfold end_. by rewrite Ha, He.
  - rewrite end_no_connection by done. intros [= <-].
    by apply end_no_connection.
Qed.

Lemma end_idempotent_witness :
  end_ Sample.native_page (Opened.ended_world, Opened.transport)
  = JS.Normal (Opened.ended_world, Opened.transport)
  ∧ end_ Sample.native_page (Opened.world, Opened.fresh)
    = JS.Normal (Opened.world, Opened.fresh).
Proof.
  split.
  - exact (proj1 (end_idempotent Sample.native_page
                    (Opened.world, Opened.transport)
                    (Opened.ended_world, Opened.transport)) eq_refl).
  - exact (proj2 (end_idempotent Sample.native_page
                    (Opened.world, Opened.fresh)
                    (Opened.world, Opened.fresh)) eq_refl).
Defined.

(** X17.  When [destroy] completes, the transport holds no connection,
    no url and no listeners; a following [end] is a no-op, and a
    following [open] throws a [TypeError] whatever url it is given. *)
Theorem destroy_retires env st st' :
  destroy env st = JS.Normal st' →
  api (snd st') = None ∧ url (snd st') = None ∧ listen (snd st') = false
  ∧ end_ env st' = JS.Normal st'
  ∧ ∀ u, open env st' u = JS.Throw JS.TypeError.
Proof.
  unfold destroy. destruct (end_ env st) as [[w t]|] eqn:He; [|done].
  simpl. intros [= <-]. simpl. split_and!; [done..|].
  intros u. unfold open. simpl.
  destruct (legacy_api env); [|done].
  unfold legacy. by destruct (truthy_url u), u.
Qed.

Lemma destroy_retires_witness :
  end_ Sample.native_page (Opened.ended_world, Opened.retired)
  = JS.Normal (Opened.ended_world, Opened.retired)
  ∧ open Sample.native_page (Opened.ended_world, Opened.retired) (Some "/a")
    = JS.Throw JS.TypeError.
Proof.
  pose proof (destroy_retires Sample.native_page
                (Opened.world, Opened.transport)
                (Opened.ended_world, Opened.retired) eq_refl)
    as (_ & _ & _ & Hend & Hopen).
  exact (conj Hend (Hopen (Some "/a"))).
Defined.

End connections.

Section opening.

Import Transport.
Implicit Types (w : World) (t : ServerSentEvents) (h : Handle) (a : nat)
  (st : State) (u : option string).

Lemma end_inv env w t w' t' :
  end_ env (w, t) = JS.Normal (w', t') →
  t' = t ∧ unique w' = unique w ∧ markup w' = markup w
  ∧ length (handles w') = length (handles w)
  ∧ ∀ b, handles w' !! b
         = if decide (api t = Some b) then Conn.ended <$> handles w !! b
           else handles w !! b.
Proof.
  destruct (api t) as [a|] eqn:Ha.
  - destruct (has_removeListener env) eqn:He.
    + rewrite (end_eq env w t a) by done. intros [= <- <-]. simpl.
      split_and!; [done..|by rewrite length_alter|].
      intros b. case_decide as Hb.
      * injection Hb as ->. by rewrite list_lookup_alter_eq.
      * rewrite list_lookup_alter_ne; [done|congruence].
    + unfold end_. by rewrite Ha, He.
  - rewrite end_no_connection by done. intros [= <- <-].
    split_and!; [done..|]. intros b. by rewrite decide_False.
Qed.

Lemma alter_last {A} (f : A → A) (l : list A) x :
  alter f (length l) (l ++ [x]) = l ++ [f x].
Proof. by rewrite alter_app_r_alt, Nat.sub_diag. Qed.

(** What a completed [open] has done: [end] ran first, then one
    connection object was appended, with the four bindings, and the
    transport points at it. *)
Lemma open_inv env w t u w' t' :
  open env (w, t) u = JS.Normal (w', t') →
  ∃ w0 k,
    end_ env (w, t) = JS.Normal (w0, t)
    ∧ handles w' = handles w0 ++ [{| kind := k; closed := false;
                                     bindings := Conn.full_set env |}]
    ∧ api t' = Some (length (handles w0))
    ∧ (if legacy_api env
       then ∃ s, (if truthy_url u then u else url t) = Some s
                 ∧ k = Element
                         (Some ((if Str.contains "?"%char s then "&" else "?")
                                +:+ Conn.marker (unique w0)))
                         (Conn.marker (unique w0))
                 ∧ url t'
                   = Some ((if Str.contains "?"%char s then "&" else "?")
                           +:+ Conn.marker (unique w0))
                 ∧ unique w' = unique w0 + 1
       else k = Native (url t) true
            ∧ url t' = (if truthy_url u then u else url t)
            ∧ unique w' = unique w0 ∧ markup w' = markup w0).
Proof.
  unfold open. cbn [snd].
  match goal with
  | |- (?c ≫= _) = _ → _ => assert (c = end_ env (w, t)) as ->
  end.
  { destruct (api t) eqn:Ha; [done|]. by rewrite end_no_connection. }
  destruct (end_ env (w, t)) as [[w0 t0]|] eqn:Hend; [|done].
  destruct (end_inv _ _ _ _ _ Hend) as (-> & _).
  cbn [mbind JS.completion_bind snd].
  unfold Conn.full_set, Conn.message_event.
  destruct (legacy_api env).
  - unfold legacy.
    destruct (if truthy_url u then u else url t) as [s|]; [|done]. simpl.
    destruct (listen t) eqn:Hlisten; [|done]. simpl. rewrite Hlisten.
    intros [= <- <-]. eexists w0, _. split; [done|]. simpl.
    rewrite !alter_last. simpl. split_and!; [done..|]. by eexists.
  - unfold initialize. simpl.
    destruct (listen t) eqn:Hlisten; [|done]. simpl. rewrite Hlisten.
    intros [= <- <-]. eexists w0, _. split; [done|]. simpl.
    rewrite !alter_last. by simpl.
Qed.

(** X18.  A completed [open] has created exactly one new connection
    object, the transport points at it, it is not closed, and it carries
    exactly four bindings, attached in this order: the data listener on
    [message] (native strategy) or [sse] (legacy strategy), then the
    [error], [close] and [open] listeners. *)
Theorem open_attaches_full_set env w t u w' t' :
  open env (w, t) u = JS.Normal (w', t') →
  ∃ a h,
    api t' = Some a ∧ handles w' !! a = Some h
    ∧ closed h = false ∧ bindings h = Conn.full_set env
    ∧ a = length (handles w)
    ∧ length (handles w') = S (length (handles w)).
Proof.
  intros (w0 & k & Hend & Hh & Ha & _)%open_inv.
  destruct (end_inv _ _ _ _ _ Hend) as (_ & _ & _ & Hlen & _).
  eexists _, _. split; [exact Ha|].
  rewrite Hh, lookup_app_r, Nat.sub_diag by done. simpl.
  split_and!; [done..|congruence|].
  rewrite length_app. simpl. lia.
Qed.

Lemma open_attaches_full_set_witness :
  ∃ a h,
    api Opened.transport = Some a
    ∧ handles Opened.world !! a = Some h
    ∧ closed h = false ∧ bindings h = Conn.full_set Sample.native_page
    ∧ a = 0%nat ∧ length (handles Opened.world) = 1%nat.
Proof.
  exact (open_attaches_full_set Sample.native_page initial_world
           Opened.fresh (Some "/a") Opened.world Opened.transport eq_refl).
Defined.

(** X19.  If no connection is live except the one the transport holds,
    then after a completed [open] exactly one connection is live: the one
    the transport holds now.  (On connection objects without
    [removeListener], [open] completes only on a transport that holds no
    connection.) *)
Theorem open_keeps_single_live env w t u w' t' :
  Conn.single_live (w, t) →
  open env (w, t) u = JS.Normal (w', t') →
  ∀ a, is_live w' a = true ↔ api t' = Some a.
Proof.
  intros Hinv (w0 & k & Hend & Hh & Ha & _)%open_inv.
  destruct (end_inv _ _ _ _ _ Hend) as (_ & _ & _ & _ & Hlook).
  assert (∀ b, is_live w0 b = false) as Hdead.
  { intros b. unfold is_live, handle_of. rewrite Hlook.
    case_decide as Hb.
    - by destruct (handles w !! b).
    - destruct (is_live w b) eqn:Hlive.
      + by apply Hinv in Hlive.
      + done. }
  intros a. rewrite Ha. unfold is_live, handle_of. rewrite Hh.
  destruct (decide (a < length (handles w0))%nat) as [Hlt|Hge].
  - rewrite lookup_app_l by done. specialize (Hdead a).
    unfold is_live, handle_of in Hdead. rewrite Hdead.
    split; [done|]. intros [= ?]. lia.
  - rewrite lookup_app_r by lia.
    destruct (a - length (handles w0))%nat as [|n] eqn:Hn; simpl.
    + split; [|done]. intros _. f_equal. lia.
    + split; [done|]. intros [= ?]. lia.
Qed.

Lemma open_keeps_single_live_witness :
  is_live Opened.world 0 = true
  ∧ api (snd Opened.reopened) = Some 1%nat
  ∧ is_live (fst Opened.reopened) 1 = true
  ∧ ¬ is_live (fst Opened.reopened) 0 = true.
Proof.
  assert (Conn.single_live (Opened.world, Opened.transport)) as Hone.
  { intros [|a] Ha; [reflexivity|discriminate Ha]. }
  pose proof (open_keeps_single_live Sample.native_page Opened.world
                Opened.transport (Some "/b") (fst Opened.reopened)
                (snd Opened.reopened) Hone eq_refl) as H.
  split; [reflexivity|]. split; [reflexivity|].
  split; [exact (proj2 (H 1%nat) eq_refl)|].
  intros H0. apply H in H0. discriminate H0.
Defined.

(** X20.  Under the native strategy the connection that [open] creates
    is built with credentials for the url the transport held before the
    call, and the argument (or, when it is missing or empty, the held
    url) is only stored for later: after [open(x)], the next [open]
    connects to [x], whatever its own argument is. *)
Theorem native_open_targets_held_url env w t x w1 t1 u w2 t2 :
  legacy_api env = false → truthy_url (Some x) = true →
  open env (w, t) (Some x) = JS.Normal (w1, t1) →
  open env (w1, t1) u = JS.Normal (w2, t2) →
  ∃ a1 h1 a2 h2,
    api t1 = Some a1 ∧ handles w1 !! a1 = Some h1
    ∧ kind h1 = Native (url t) true ∧ url t1 = Some x
    ∧ api t2 = Some a2 ∧ handles w2 !! a2 = Some h2
    ∧ kind h2 = Native (Some x) true.
Proof.
  intros He Hx (w0 & k & _ & Hh & Ha & H1)%open_inv
               (w0' & k' & _ & Hh' & Ha' & H2)%open_inv.
  rewrite He in H1, H2. destruct H1 as (-> & Hu & _), H2 as (-> & _).
  assert (url t1 = Some x) as Hurl.
  { by rewrite Hu, Hx. }
  eexists _, _, _, _.
  split; [exact Ha|]. rewrite Hh, lookup_app_r, Nat.sub_diag by done.
  split; [done|]. split; [done|]. split; [done|].
  split; [exact Ha'|]. rewrite Hh', lookup_app_r, Nat.sub_diag by done.
  split; [done|]. simpl. by rewrite Hurl.
Qed.

Lemma native_open_targets_held_url_witness :
  ∃ a1 h1 a2 h2,
    api Opened.transport = Some a1
    ∧ handles Opened.world !! a1 = Some h1
    ∧ kind h1 = Native (url Opened.fresh) true
    ∧ url Opened.transport = Some "/a"
    ∧ api (snd Opened.reopened) = Some a2
    ∧ handles (fst Opened.reopened) !! a2 = Some h2
    ∧ kind h2 = Native (Some "/a") true.
Proof.
  exact (native_open_targets_held_url Sample.native_page
           initial_world Opened.fresh "/a" Opened.world Opened.transport
           (Some "/b") (fst Opened.reopened) (snd Opened.reopened)
           eq_refl eq_refl eq_refl eq_refl).
Defined.

End opening.

Section markers.

Import Transport.
Implicit Types (w : World) (t : ServerSentEvents) (h : Handle) (a : nat)
  (u : option string).

Lemma marker_inj n m : Conn.marker n = Conn.marker m → n = m.
Proof.
  unfold Conn.marker. intros H.
  apply (inj (String.app "_SSE_LEGACY=")) in H. by apply (inj pretty) in H.
Qed.

Lemma markers_alter (f : Handle → Handle) (l : list Handle) (i : nat) :
  (∀ h, Conn.marker_of (f h) = Conn.marker_of h) →
  omap Conn.marker_of (alter f i l) = omap Conn.marker_of l.
Proof.
  intros Hf. revert i. induction l as [|h l IH]; intros i; [done|].
  destruct i as [|i]; simpl.
  - by rewrite Hf.
  - destruct (Conn.marker_of h); [f_equal|]; apply IH.
Qed.

Lemma ended_marker h : Conn.marker_of (Conn.ended h) = Conn.marker_of h.
Proof. unfold Conn.marker_of. simpl. by destruct (kind h). Qed.

Lemma end_markers env w t w' t' :
  end_ env (w, t) = JS.Normal (w', t') →
  Conn.markers w' = Conn.markers w ∧ unique w' = unique w.
Proof.
  destruct (api t) as [a|] eqn:Ha.
  - destruct (has_removeListener env) eqn:He.
    + rewrite (end_eq env w t a) by done. intros [= <- <-].
      split; [|done]. apply markers_alter, ended_marker.
    + unfold end_. by rewrite Ha, He.
  - rewrite end_no_connection by done. by intros [= <- <-].
Qed.

(** X21.  The ids of the legacy elements stay unique.  If every element
    id in the document was minted from a counter value below the current
    one and no id occurs twice, this is still so after a completed
    [open], and the counter has not gone down; under the legacy strategy
    the new element's id is the marker of the counter value at the time
    of the call, which no earlier element has. *)
Theorem open_keeps_markers_fresh env w t u w' t' :
  Conn.markers_fresh w →
  open env (w, t) u = JS.Normal (w', t') →
  Conn.markers_fresh w' ∧ unique w ≤ unique w'
  ∧ (legacy_api env = true →
       Conn.markers w' = Conn.markers w ++ [Conn.marker (unique w)]
       ∧ Conn.marker (unique w) ∉ Conn.markers w).
Proof.
  intros [Hnd Hlt] (w0 & k & Hend & Hh & _ & Hk)%open_inv.
  destruct (end_markers _ _ _ _ _ Hend) as [Hm Hu].
  assert (Conn.marker (unique w) ∉ Conn.markers w) as Hnew.
  { intros (n & Hn & Heq%marker_inj)%Hlt. lia. }
  assert (Conn.markers w'
          = Conn.markers w ++ (if legacy_api env
                               then [Conn.marker (unique w)] else []))
    as Hall.
  { unfold Conn.markers at 1. rewrite Hh, omap_app. fold (Conn.markers w0).
    rewrite Hm. f_equal. unfold Conn.marker_of. simpl.
    destruct (legacy_api env).
    - destruct Hk as (s & _ & -> & _). by rewrite Hu.
    - by destruct Hk as (-> & _). }
  assert (unique w' = unique w + (if legacy_api env then 1 else 0)) as Hnext.
  { destruct (legacy_api env).
    - destruct Hk as (s & _ & _ & _ & ->). by rewrite Hu.
    - destruct Hk as (_ & _ & -> & _). rewrite Hu. lia. }
  split_and!.
  - split.
    + rewrite Hall. destruct (legacy_api env).
      * apply NoDup_app. split_and!; [done| |apply NoDup_singleton].
        intros i Hi ->%list_elem_of_singleton. done.
      * by rewrite app_nil_r.
    + intros i. rewrite Hall, elem_of_app. intros [Hi|Hi].
      * destruct (Hlt i Hi) as (n & Hn & ->). exists n. split; [|done].
        rewrite Hnext. destruct (legacy_api env); lia.
      * destruct (legacy_api env); [|by apply elem_of_nil in Hi].
        apply list_elem_of_singleton in Hi as ->.
        exists (unique w). split; [|done]. lia.
  - rewrite Hnext. destruct (legacy_api env); lia.
  - intros He. rewrite He in Hall. done.
Qed.

Lemma open_keeps_markers_fresh_witness :
  Conn.markers (fst Opened.legacy_first) = ["_SSE_LEGACY=1"]
  ∧ Conn.markers (fst Opened.legacy_second)
    = ["_SSE_LEGACY=1"] ++ ["_SSE_LEGACY=2"]
  ∧ ("_SSE_LEGACY=2" ∉ Conn.markers (fst Opened.legacy_first))
  ∧ Conn.markers_fresh (fst Opened.legacy_second)
  ∧ unique (fst Opened.legacy_second) = 3.
Proof.
  assert (Conn.markers_fresh initial_world) as H0.
  { split; [constructor|]. intros i Hi. by apply elem_of_nil in Hi. }
  destruct (open_keeps_markers_fresh Sample.legacy_page initial_world
              Opened.fresh (Some "/a") (fst Opened.legacy_first)
              (snd Opened.legacy_first) H0 eq_refl) as (H1 & _ & Hm1).
  destruct (open_keeps_markers_fresh Sample.legacy_page
              (fst Opened.legacy_first) (snd Opened.legacy_first)
              (Some "/b") (fst Opened.legacy_second)
              (snd Opened.legacy_second) H1 eq_refl) as (H2 & _ & Hm2).
  destruct (Hm2 eq_refl) as [Hm Hn].
  split; [exact (proj1 (Hm1 eq_refl))|].
  split; [exact Hm|]. split; [exact Hn|]. split; [exact H2|reflexivity].
Defined.

End markers.

Section manual_transport.

Import Transport.
Implicit Types (w : World) (t : ServerSentEvents) (u : option string).

(** X23.  A transport constructed with [manual] creates no connection.
    Under the native strategy a following [open()] without argument then
    creates the one connection, and builds it for the url that was given
    to the constructor, which the transport keeps. *)
Theorem manual_then_open_connects env w u o fn st w' t' :
  legacy_api env = false → JS.truthy (opt_manual o) = true →
  new env w u o fn = JS.Normal st →
  open env st None = JS.Normal (w', t') →
  fst st = w ∧ api (snd st) = None ∧ url (snd st) = u
  ∧ ∃ h, handles w' = handles w ++ [h]
         ∧ api t' = Some (length (handles w))
         ∧ kind h = Native u true ∧ closed h = false
         ∧ url t' = u.
Proof.
  intros He Hm. unfold new. rewrite Hm. simpl. intros [= <-]. simpl.
  intros (w0 & k & Hend & Hh & Ha & Hk)%open_inv.
  rewrite end_no_connection in Hend by done. injection Hend as <-.
  rewrite He in Hk. simpl in Hk. destruct Hk as (-> & Hu & _).
  split_and!; [done..|]. eexists. by split_and!.
Qed.

Lemma manual_then_open_connects_witness :
  ∃ w' t' h,
    (st ← new Sample.native_page initial_world (Some "/a")
            Sample.manual_open false;
     open Sample.native_page st None) = JS.Normal (w', t')
    ∧ handles w' = [] ++ [h] ∧ kind h = Native (Some "/a") true.
Proof.
  eexists _, _.
  destruct (manual_then_open_connects Sample.native_page initial_world
              (Some "/a") Sample.manual_open false _ _ _
              eq_refl eq_refl eq_refl eq_refl)
    as (_ & _ & _ & h & Hh & _ & Hk & _).
  exists h. split; [reflexivity|]. split; [exact Hh|exact Hk].
Defined.

End manual_transport.
